(** * Video frame redundancy detection: a shallow embedding

    This development embeds [Video_Frame_Redundancy_Detection.py] and checks
    the properties of its frame encoder ([frame_to_24int]), its similarity
    metric ([is_similar_arr]) and its scanner ([find_redundant_ranges]).

    Modelling conventions.
    - Python integers and NumPy unsigned words are [Z]; the wrap-around of a
      [uint32]/[uint64] operation is written out with [Z.modulo].
    - A NumPy one-dimensional array is a [list Z]; a two-dimensional one is a
      list of rows.  [ndarray.view(np.uint8)] is taken on a little-endian
      host (least significant byte first).
    - [print] is an event appended to a trace; an exception ends the run and
      keeps the trace printed so far.
    - The quotient [matched / zeros.size], [SIMILARITY_RATIO] and the frame
      rate are exact rationals ([Q]).  The rounding of binary64 is not
      modelled: it matters only for a quotient within one rounding error of
      the ratio.
    - The [while] loop of the scanner runs on fuel; the ladder loop is defined
      by well-founded recursion. *)

From Equations Require Import Equations.
From Stdlib Require Import QArith Qround.
From stdpp Require Import gmap sorting numbers list.

Local Open Scope Z_scope.

(** ** Exceptions, printed events and the run monad *)

Inductive error : Type :=
| ValueError
| IndexError
| ZeroDivisionError.

Inductive result (A : Type) : Type :=
| Ok (a : A)
| Raise (e : error)
| NoFuel.
Arguments Ok {A} a.
Arguments Raise {A} e.
Arguments NoFuel {A}.

(** One constructor per [print] call of the core (lines 43, 66, 68, 71, 75,
    79 and 82 of the source). *)
Inductive event : Type :=
| EvMatched (matched size : Z)
| EvBase (base : Z)
| EvCandidates (candidates : list Z)
| EvComparing (base cand : Z)
| EvMatch (first last : Z)
| EvNoMatch (cand : Z)
| EvAdvance (new_base : Z).

Definition M (A : Type) : Type := (list event * result A)%type.

Definition ret {A} (a : A) : M A := ([], Ok a).

Definition bind {A B} (m : M A) (k : A → M B) : M B :=
  match m.2 with
  | Ok a => (m.1 ++ (k a).1, (k a).2)
  | Raise e => (m.1, Raise e)
  | NoFuel => (m.1, NoFuel)
  end.

Definition raise {A} (e : error) : M A := ([], Raise e).

Definition print (ev : event) : M unit := ([ev], Ok tt).

Definition out_of_fuel {A} : M A := ([], NoFuel).

Declare Scope run_scope.
Delimit Scope run_scope with run.
Notation "'do' x <- m 'in' k" := (bind m (λ x, k))
  (at level 10, x name, m at level 100, k at level 200,
   format "'[v' 'do'  x  <-  m  'in' '/' k ']'") : run_scope.
Notation "'do' ' p <- m 'in' k" := (bind m (λ x, match x with p => k end))
  (at level 10, p pattern, m at level 100, k at level 200) : run_scope.
Notation "m >> k" := (bind m (λ _, k))
  (at level 100, k at level 200, right associativity) : run_scope.
Local Open Scope run_scope.

(** [l[i]] on a Python list: negative indices count from the end. *)
Definition py_index {A} (l : list A) (i : Z) : M A :=
  let n := Z.of_nat (length l) in
  let j := if decide (i < 0) then n + i else i in
  if decide (0 ≤ j < n) then
    match l !! Z.to_nat j with
    | Some x => ret x
    | None => raise IndexError
    end
  else raise IndexError.

(** ** Frame encoder (lines 29-34) *)

Record rgb : Type := RGB { red : Z; green : Z; blue : Z }.

(** A decoded frame: [height] rows of [width] pixels. *)
Abbreviation frame := (list (list rgb)).

Definition frame_shape (height width : nat) (f : frame) : Prop :=
  length f = height ∧ Forall (λ row, length row = width) f.

Definition is_uint8 (c : Z) : Prop := 0 ≤ c < 256.

Definition rgb_uint8 (p : rgb) : Prop :=
  is_uint8 (red p) ∧ is_uint8 (green p) ∧ is_uint8 (blue p).

Definition frame_uint8 (f : frame) : Prop := Forall (Forall rgb_uint8) f.

Definition uint32 (x : Z) : Z := x `mod` 2 ^ 32.

(** [frame[:, :, k].astype(np.uint32)] *)
Definition channel (proj : rgb → Z) (f : frame) : list (list Z) :=
  map (map (λ p, uint32 (proj p))) f.

Definition shl32 (k : Z) (x : list (list Z)) : list (list Z) :=
  map (map (λ v, uint32 (Z.shiftl v k))) x.

Definition or32 (x y : list (list Z)) : list (list Z) :=
  zip_with (zip_with Z.lor) x y.

Definition ravel (x : list (list Z)) : list Z := concat x.

Definition frame_to_24int (f : frame) : list Z :=
  let r := channel red f in
  let g := channel green f in
  let b := channel blue f in
  ravel (or32 (or32 (shl32 16 r) (shl32 8 g)) b).

(** ** Similarity metric (lines 36-44) *)

(** [np.bitwise_xor] on two one-dimensional arrays, with NumPy broadcasting
    of a length-one operand. *)
Definition bitwise_xor (a b : list Z) : M (list Z) :=
  if decide (length a = length b) then ret (zip_with Z.lxor a b)
  else if decide (length a = 1%nat) then ret (map (Z.lxor (hd 0 a)) b)
  else if decide (length b = 1%nat) then ret (map (λ x, Z.lxor x (hd 0 b)) a)
  else raise ValueError.

(** [x.view(np.uint8)] of a [uint32] array: four bytes per word. *)
Definition word_bytes (x : Z) : list Z :=
  [Z.land x 255; Z.land (Z.shiftr x 8) 255;
   Z.land (Z.shiftr x 16) 255; Z.land (Z.shiftr x 24) 255].

Definition view_uint8 (x : list Z) : list Z := concat (map word_bytes x).

(** [np.unpackbits]: eight bits per byte, most significant first. *)
Definition byte_bits (byte : Z) : list Z :=
  map (λ k, Z.b2z (Z.testbit byte k)) [7; 6; 5; 4; 3; 2; 1; 0].

Definition unpackbits (bytes : list Z) : list Z := concat (map byte_bits bytes).

Fixpoint rows_of (n w : nat) (l : list Z) : list (list Z) :=
  match n with
  | O => []
  | S n' => take w l :: rows_of n' w (drop w l)
  end.

(** [x.reshape(-1, w)]: fails unless [w] divides the size. *)
Definition reshape (w : nat) (l : list Z) : M (list (list Z)) :=
  if decide ((length l `mod` w)%nat = 0%nat)
  then ret (rows_of (length l / w)%nat w l)
  else raise ValueError.

Definition sum_list (l : list Z) : Z := foldr Z.add 0 l.

Definition uint64 (x : Z) : Z := x `mod` 2 ^ 64.

(** [x.sum(axis=1)]: row sums, accumulated in [uint64]. *)
Definition sum_axis1 (rows : list (list Z)) : list Z :=
  map (λ row, uint64 (sum_list row)) rows.

(** Lines 38-40: the array [zeros]. *)
Definition zeros_of (a b : list Z) : M (list Z) :=
  do xor <- bitwise_xor a b in
  do rows <- reshape 24 (unpackbits (view_uint8 xor)) in
  let ones := sum_axis1 rows in
  ret (map (λ o, uint64 (24 - o)) ones).

(** [np.count_nonzero(zeros >= t)] *)
Definition count_matched (t : Z) (zeros : list Z) : Z :=
  Z.of_nat (length (filter (λ z, t ≤ z) zeros)).

(** [matched / size] on Python integers. *)
Definition true_div (x y : Z) : M Q :=
  if decide (y = 0) then raise ZeroDivisionError
  else ret (inject_Z x / inject_Z y)%Q.

Section Config.

(** The module-level configuration constants (lines 10-11). *)
Variable THRESHOLD_ZERO_BITS : Z.
Variable SIMILARITY_RATIO : Q.

Definition is_similar_arr (a b : list Z) : M bool :=
  do zeros <- zeros_of a b in
  let matched := count_matched THRESHOLD_ZERO_BITS zeros in
  let size := Z.of_nat (length zeros) in
  do ratio <- true_div matched size in
  print (EvMatched matched size) >>
  ret (Qle_bool SIMILARITY_RATIO ratio).

End Config.

(** The values the source gives the constants. *)
Definition THRESHOLD_ZERO_BITS_default : Z := 17.
Definition SIMILARITY_RATIO_default : Q := (7 # 10)%Q.

(** ** Scanner (lines 46-85) *)

(** [int(fps)]: truncation towards zero. *)
Definition py_int (fps : Q) : Z := Z.quot (Qnum fps) (Z.pos (Qden fps)).

(** Lines 59-61: [while step >= 1: offs.append(step); step //= 2]. *)
Equations? while_step (offs : list Z) (step : Z) : list Z
  by wf (Z.to_nat step) lt :=
  while_step offs step with decide (1 ≤ step) := {
    | left _ => while_step (offs ++ [step]) (step `div` 2)
    | right _ => offs }.
Proof.
  apply Z2Nat.inj_lt; [apply Z.div_pos; lia | lia | apply Z.div_lt; lia].
Qed.

(** Lines 58-63: the offset ladder. *)
Definition build_offs (fps : Q) : M (list Z) :=
  let offs := while_step [] (py_int fps) in
  do last <- py_index offs (-1) in
  if decide (last ≠ 1) then ret (offs ++ [1]) else ret offs.

(** [range(lo, hi)] *)
Definition py_range (lo hi : Z) : list Z := seqZ lo (hi - lo).

Section Scanner.

Variable THRESHOLD_ZERO_BITS : Z.
Variable SIMILARITY_RATIO : Q.

Variable int_frames : list (list Z).

(** [N] in the source. *)
Definition n_frames : Z := Z.of_nat (length int_frames).

(** Line 72: the two frame reads and the call of the metric. *)
Definition compare_frames (base cand : Z) : M bool :=
  do fb <- py_index int_frames base in
  do fc <- py_index int_frames cand in
  is_similar_arr THRESHOLD_ZERO_BITS SIMILARITY_RATIO fb fc.

(** Lines 70-83: the [for ... else] over the candidates.  The result is
    the updated pair of [redundant] and [base]. *)
Fixpoint for_cand (redundant : gset Z) (base : Z) (candidates : list Z)
  : M (gset Z * Z) :=
  match candidates with
  | [] =>
      let new_base := Z.min (base + 10) (n_frames - 1) in
      print (EvAdvance new_base) >>
      ret (redundant, new_base)
  | cand :: rest =>
      print (EvComparing base cand) >>
      do similar <- compare_frames base cand in
      if similar : bool then
        let redundant' := redundant ∪ list_to_set (py_range (base + 1) (cand + 1)) in
        print (EvMatch (base + 1) cand) >>
        ret (redundant', cand + 1)
      else
        print (EvNoMatch cand) >>
        for_cand redundant base rest
  end.

(** Line 67 *)
Definition candidates_of (offs : list Z) (base : Z) : list Z :=
  (λ o, base + o) <$> filter (λ o, base + o < n_frames) offs.

(** Lines 66-83: the body of the [while] loop. *)
Definition outer_iter (offs : list Z) (redundant : gset Z) (base : Z)
  : M (gset Z * Z) :=
  print (EvBase base) >>
  let candidates := candidates_of offs base in
  print (EvCandidates candidates) >>
  for_cand redundant base candidates.

(** Lines 65-83: [while base < N - 1]. *)
Fixpoint while_base (fuel : nat) (offs : list Z) (redundant : gset Z) (base : Z)
  : M (gset Z) :=
  if decide (base < n_frames - 1) then
    match fuel with
    | O => out_of_fuel
    | S fuel' =>
        do '(redundant', base') <- outer_iter offs redundant base in
        while_base fuel' offs redundant' base'
    end
  else ret redundant.

(** [sorted(redundant)] *)
Definition sorted (s : gset Z) : list Z := merge_sort Z.le (elements s).

Definition find_redundant_ranges (fps : Q) : M (list Z) :=
  do offs <- build_offs fps in
  do redundant <- while_base (Z.to_nat n_frames) offs ∅ 0 in
  ret (sorted redundant).

End Scanner.

(** The verdict of line 72 on the frames at two indices, without the trace. *)
Definition judged (thr : Z) (ratio : Q) (frames : list (list Z))
    (base cand : Z) : result bool :=
  (compare_frames thr ratio frames base cand).2.

(** ** The similarity metric as the specification words it

    Used only to compare the code with section 4.2 of the specification and
    with the docstring of [is_similar_arr]: one entry per pixel, counted on
    the low 24 bits of the XOR. *)

(** Section 4.1: [(red << 16) | (green << 8) | blue]. *)
Definition pack (p : rgb) : Z :=
  Z.lor (Z.lor (Z.shiftl (red p) 16) (Z.shiftl (green p) 8)) (blue p).

Definition popcount24 (x : Z) : Z :=
  sum_list (map (λ k, Z.b2z (Z.testbit x k)) (seqZ 0 24)).

Definition spec_zeros (a b : list Z) : list Z :=
  zip_with (λ x y, 24 - popcount24 (Z.lxor x y)) a b.

Definition spec_isSimilar (zeroBitThreshold : Z) (similarityRatio : Q)
    (a b : list Z) : bool :=
  Qle_bool similarityRatio
    (inject_Z (count_matched zeroBitThreshold (spec_zeros a b))
     / inject_Z (Z.of_nat (length a)))%Q.

(** * Properties *)

(** ** Runs *)

Definition compared (tr : list event) : list (Z * Z) :=
  omap (λ ev, match ev with EvComparing b c => Some (b, c) | _ => None end) tr.

Definition bases (tr : list event) : list Z :=
  omap (λ ev, match ev with EvBase b => Some b | _ => None end) tr.

(** ** Sample inputs *)

(** Five identical frames of three pixels of the colour (10, 20, 30). *)
Definition five_solid_frames : list (list Z) := replicate 5 [660510; 660510; 660510].

(** What the scanner prints on them at two frames per second. *)
Definition five_solid_trace : list event :=
  [EvBase 0; EvCandidates [2; 1]; EvComparing 0 2; EvMatched 4 4; EvMatch 1 2;
   EvBase 3; EvCandidates [4]; EvComparing 3 4; EvMatched 4 4; EvMatch 4 4].

(** Four frames of three pixels; the third differs from the others in every bit. *)
Definition one_odd_frame : list (list Z) :=
  [[0; 0; 0]; [0; 0; 0]; [16777215; 16777215; 16777215]; [0; 0; 0]].

(** The ranges printed by line 75 and the fallbacks printed by line 82. *)
Definition matches (tr : list event) : list (Z * Z) :=
  omap (λ ev, match ev with EvMatch lo hi => Some (lo, hi) | _ => None end) tr.

Definition advances (tr : list event) : list Z :=
  omap (λ ev, match ev with EvAdvance b => Some b | _ => None end) tr.

(** Lines 107 and 110 of [main]: pack every decoded frame, then scan. *)
Definition scan_frames (thr : Z) (ratio : Q) (frames : list frame) (fps : Q)
  : M (list Z) :=
  find_redundant_ranges thr ratio (frame_to_24int <$> frames) fps.

(** ** Reading the channels back *)

(** Bits 23-16, 15-8 and 7-0 of a packed pixel. *)
Definition unpack (v : Z) : rgb :=
  RGB (Z.shiftr v 16) (Z.land (Z.shiftr v 8) 255) (Z.land v 255).

Lemma bind_run {A B} (m : M A) (k : A → M B) :
  bind m k =
  match m with
  | (t, Ok a) => (t ++ (k a).1, (k a).2)
  | (t, Raise e) => (t, Raise e)
  | (t, NoFuel) => (t, NoFuel)
  end.
Proof. by destruct m as [t [a|e|]]. Qed.

Lemma bind_Ok {A B} (m : M A) (k : A → M B) tr b :
  bind m k = (tr, Ok b) →
  ∃ t1 a t2, m = (t1, Ok a) ∧ k a = (t2, Ok b) ∧ tr = t1 ++ t2.
Proof.
  rewrite bind_run. destruct m as [t [a|e|]]; [|done..].
  destruct (k a) as [t2 r] eqn:Hk. cbn. intros [= <- ->]. eauto 6.
Qed.

Lemma bind_ret_l {A B} (a : A) (k : A → M B) : bind (ret a) k = k a.
Proof. unfold bind, ret. cbn. by destruct (k a). Qed.

Lemma bind_raise_l {A B} (e : error) (k : A → M B) : bind (raise e) k = raise e.
Proof. done. Qed.

Lemma compared_app t1 t2 : compared (t1 ++ t2) = compared t1 ++ compared t2.
Proof. apply omap_app. Qed.

Lemma bases_app t1 t2 : bases (t1 ++ t2) = bases t1 ++ bases t2.
Proof. apply omap_app. Qed.

Lemma compared_cons ev t :
  compared (ev :: t) =
  match ev with EvComparing b c => (b, c) :: compared t | _ => compared t end.
Proof. by destruct ev. Qed.

Lemma bases_cons ev t :
  bases (ev :: t) = match ev with EvBase b => b :: bases t | _ => bases t end.
Proof. by destruct ev. Qed.

Lemma compared_nil : compared [] = [].
Proof. done. Qed.

Lemma bases_nil : bases [] = [].
Proof. done. Qed.

Create Rewrite HintDb trace.
#[local] Hint Rewrite compared_cons bases_cons compared_app bases_app
  compared_nil bases_nil : trace.

Ltac trace_simpl := autorewrite with trace; cbn beta iota.

(** ** The similarity metric *)

Lemma is_similar_arr_run t r a b :
  let m := is_similar_arr t r a b in
  compared m.1 = [] ∧ bases m.1 = [] ∧ m.2 ≠ NoFuel ∧ m.2 ≠ Raise IndexError.
Proof.
  unfold is_similar_arr, zeros_of, bitwise_xor, reshape, true_div.
  repeat (case_decide; cbn); done.
Qed.

(** The array [zeros] does not depend on the configuration, and a run of the
    metric that returns reports its matched count and size. *)
Lemma is_similar_arr_Ok t r a b tr v :
  is_similar_arr t r a b = (tr, Ok v) →
  ∃ zs, zeros_of a b = ([], Ok zs) ∧ zs ≠ [] ∧
    tr = [EvMatched (count_matched t zs) (Z.of_nat (length zs))] ∧
    v = Qle_bool r (inject_Z (count_matched t zs) / inject_Z (Z.of_nat (length zs)))%Q.
Proof.
  unfold is_similar_arr. intros H.
  apply bind_Ok in H as (t1 & zs & t2 & Hz & H & ->).
  apply bind_Ok in H as (t3 & q & t4 & Hd & H & ->).
  unfold true_div in Hd. case_decide; [done|]. injection Hd as <- <-.
  cbn in H. injection H as <- <-.
  assert (t1 = []) as ->.
  { revert Hz. unfold zeros_of, bitwise_xor, reshape.
    repeat (case_decide; cbn); congruence. }
  exists zs. split_and!; try done. intros ->. done.
Qed.

Lemma zeros_of_is_similar_arr t r a b zs :
  zeros_of a b = ([], Ok zs) → zs ≠ [] →
  is_similar_arr t r a b =
    ([EvMatched (count_matched t zs) (Z.of_nat (length zs))],
     Ok (Qle_bool r (inject_Z (count_matched t zs) / inject_Z (Z.of_nat (length zs)))%Q)).
Proof.
  intros Hz Hne. unfold is_similar_arr. rewrite Hz. cbn.
  unfold true_div. case_decide; [|done].
  destruct zs; [done|]. cbn in *. lia.
Qed.

Lemma count_matched_antitone t1 t2 zs :
  t1 ≤ t2 → count_matched t2 zs ≤ count_matched t1 zs.
Proof.
  intros Ht. unfold count_matched. apply inj_le.
  induction zs as [|z zs IH]; [done|].
  rewrite !filter_cons. repeat case_decide; cbn; lia.
Qed.


Lemma Qle_bool_antitone (r1 r2 q : Q) :
  (r1 <= r2)%Q → Qle_bool r2 q = true → Qle_bool r1 q = true.
Proof.
  intros Hr Hq. apply Qle_bool_iff. apply Qle_bool_iff in Hq.
  by apply Qle_trans with r2.
Qed.

(** C8: for a fixed pair of equal-length packed frames, the matched count
    that the metric reports does not increase when the zero-bit threshold
    increases, and a pair declared similar at a ratio [r2] is declared similar
    at every smaller ratio [r1]. *)
Theorem is_similar_arr_antitone (a b : list Z) (t1 t2 : Z) (r1 r2 : Q) :
  length a = length b → t1 ≤ t2 → (r1 <= r2)%Q →
  (∀ r tr2 v2, is_similar_arr t2 r a b = (tr2, Ok v2) →
     ∃ m1 m2 size v1,
       tr2 = [EvMatched m2 size] ∧
       is_similar_arr t1 r a b = ([EvMatched m1 size], Ok v1) ∧
       m2 ≤ m1) ∧
  (∀ t tr, is_similar_arr t r2 a b = (tr, Ok true) →
     is_similar_arr t r1 a b = (tr, Ok true)).
Proof.
  intros _ Ht Hr. split.
  - intros r tr2 v2 H.
    apply is_similar_arr_Ok in H as (zs & Hz & Hne & -> & ->).
    eexists _, _, _, _. split; [done|]. split.
    + by apply zeros_of_is_similar_arr.
    + by apply count_matched_antitone.
  - intros t tr H.
    apply is_similar_arr_Ok in H as (zs & Hz & Hne & -> & Hv).
    rewrite (zeros_of_is_similar_arr t r1 a b zs Hz Hne).
    do 2 f_equal. eapply Qle_bool_antitone; done.
Qed.

Lemma is_similar_arr_antitone_witness :
  (length [5; 6; 7] = length [5; 6; 8] ∧ 10 ≤ 17 ∧ (1 # 2 <= 7 # 10)%Q) ∧
  ((∀ r tr2 v2, is_similar_arr 17 r [5; 6; 7] [5; 6; 8] = (tr2, Ok v2) →
     ∃ m1 m2 size v1,
       tr2 = [EvMatched m2 size] ∧
       is_similar_arr 10 r [5; 6; 7] [5; 6; 8] = ([EvMatched m1 size], Ok v1) ∧
       m2 ≤ m1) ∧
   (∀ t tr, is_similar_arr t (7 # 10) [5; 6; 7] [5; 6; 8] = (tr, Ok true) →
     is_similar_arr t (1 # 2) [5; 6; 7] [5; 6; 8] = (tr, Ok true))).
Proof.
  split.
  - split; [reflexivity|]. split; [lia|]. vm_compute. discriminate.
  - apply (is_similar_arr_antitone [5; 6; 7] [5; 6; 8] 10 17 (1 # 2) (7 # 10)).
    + reflexivity.
    + lia.
    + vm_compute. discriminate.
Defined.

(** C1: the specification counts, per pixel, the zero bits of the low 24
    bits of the XOR and divides by the pixel count.  The code instead cuts
    the 32-bit words of the XOR into rows of 24 bits, so its rows straddle
    pixels and its size is 4/3 of the pixel count.  On the three-pixel pair
    below the code answers [True] on 3 of 4 rows, where 2 of 3 pixels match. *)
Theorem is_similar_arr_rows_straddle_pixels :
  is_similar_arr THRESHOLD_ZERO_BITS_default SIMILARITY_RATIO_default
    [16777215; 0; 0] [0; 0; 0] = ([EvMatched 3 4], Ok true) ∧
  count_matched THRESHOLD_ZERO_BITS_default
    (spec_zeros [16777215; 0; 0] [0; 0; 0]) = 2 ∧
  spec_isSimilar THRESHOLD_ZERO_BITS_default SIMILARITY_RATIO_default
    [16777215; 0; 0] [0; 0; 0] = false.
Proof. split_and!; vm_compute; reflexivity. Qed.

(** C2: the metric is to return a boolean on every pair of equal-length
    frames.  On a pair of four-pixel frames the 128 bits of the XOR do not
    reshape into rows of 24, and the code raises [ValueError]. *)
Theorem is_similar_arr_raises_on_equal_lengths :
  length [1; 2; 3; 4] = length [4; 3; 2; 1] ∧
  is_similar_arr THRESHOLD_ZERO_BITS_default SIMILARITY_RATIO_default
    [1; 2; 3; 4] [4; 3; 2; 1] = ([], Raise ValueError).
Proof. split; vm_compute; reflexivity. Qed.

(** C7: a frame compared with itself is to be similar for every threshold
    up to 24 and every ratio up to 1.  On a four-pixel frame the code raises
    [ValueError] before it counts anything. *)
Theorem is_similar_arr_self_raises :
  THRESHOLD_ZERO_BITS_default ≤ 24 ∧ (SIMILARITY_RATIO_default <= 1)%Q ∧
  is_similar_arr THRESHOLD_ZERO_BITS_default SIMILARITY_RATIO_default
    [10; 20; 30; 40] [10; 20; 30; 40] = ([], Raise ValueError).
Proof. split; [done|]. split; vm_compute; [discriminate|reflexivity]. Qed.

(** ** The offset ladder *)

Lemma while_step_ge offs step :
  1 ≤ step → while_step offs step = while_step (offs ++ [step]) (step `div` 2).
Proof.
  intros H. rewrite while_step_equation_1.
  destruct (decide (1 ≤ step)); [done|lia].
Qed.

Lemma while_step_lt offs step : step < 1 → while_step offs step = offs.
Proof.
  intros H. rewrite while_step_equation_1.
  destruct (decide (1 ≤ step)); [lia|done].
Qed.

Lemma while_step_acc offs step :
  while_step offs step = offs ++ while_step [] step.
Proof.
  remember (Z.to_nat step) as n eqn:Hn.
  revert offs step Hn. induction n as [n IH] using lt_wf_ind.
  intros offs step ->. destruct (decide (1 ≤ step)) as [Hs|Hs].
  - rewrite (while_step_ge offs), (while_step_ge []) by done.
    assert (Z.to_nat (step `div` 2) < Z.to_nat step)%nat as Hlt.
    { apply Z2Nat.inj_lt; [apply Z.div_pos; lia | lia | apply Z.div_lt; lia]. }
    rewrite (IH _ Hlt (offs ++ [step]) _ eq_refl).
    rewrite (IH _ Hlt ([] ++ [step]) _ eq_refl).
    by rewrite <-app_assoc.
  - rewrite !while_step_lt by lia. by rewrite app_nil_r.
Qed.

Lemma while_step_cons step :
  1 ≤ step → while_step [] step = step :: while_step [] (step `div` 2).
Proof. intros H. by rewrite while_step_ge, while_step_acc. Qed.

(** Shape of the ladder the loop builds from a step of at least one. *)
Lemma while_step_ladder step :
  1 ≤ step →
  ∃ init, while_step [] step = init ++ [1] ∧
    Forall (λ o, 1 < o) init ∧
    Forall (λ o, 1 ≤ o ≤ step) (while_step [] step) ∧
    StronglySorted Z.gt (while_step [] step) ∧
    head (while_step [] step) = Some step.
Proof.
  remember (Z.to_nat step) as n eqn:Hn.
  revert step Hn. induction n as [n IH] using lt_wf_ind.
  intros step -> Hs. rewrite while_step_cons by done.
  destruct (decide (step = 1)) as [->|Hne].
  - change (1 `div` 2) with 0. rewrite while_step_lt by lia.
    exists []. split_and!; try done.
    + repeat constructor; lia.
    + repeat constructor.
  - assert (1 ≤ step `div` 2) as Hh by (apply Z.div_le_lower_bound; lia).
    assert (step `div` 2 < step) as Hlt by (apply Z.div_lt; lia).
    destruct (IH (Z.to_nat (step `div` 2)) ltac:(lia) _ eq_refl Hh)
      as (init & Heq & Hinit & Hall & Hsort & _).
    exists (step :: init). split_and!.
    + by rewrite Heq.
    + constructor; [lia|done].
    + constructor; [lia|]. eapply Forall_impl; [exact Hall|]; cbn; lia.
    + constructor; [done|]. eapply Forall_impl; [exact Hall|]; cbn; lia.
    + done.
Qed.

Lemma py_index_last {A} (l : list A) (x : A) :
  last l = Some x → py_index l (-1) = ([], Ok x).
Proof.
  intros Hl. unfold py_index.
  assert (l ≠ []) as Hne by (by intros ->).
  assert (0 < length l)%nat by (destruct l; [done|cbn; lia]).
  cbv zeta. destruct (decide (-1 < 0)) as [_|]; [|lia].
  rewrite decide_True by lia.
  rewrite last_lookup in Hl.
  replace (Z.to_nat (Z.of_nat (length l) + -1)) with (pred (length l)) by lia.
  by rewrite Hl.
Qed.

Lemma py_int_floor (fps : Q) : (0 <= fps)%Q → py_int fps = Qfloor fps.
Proof.
  destruct fps as [n d]. unfold Qle, py_int, Qfloor. cbn. intros H.
  apply Z.quot_div_nonneg; lia.
Qed.

Lemma build_offs_Ok (fps : Q) :
  1 ≤ py_int fps → build_offs fps = ([], Ok (while_step [] (py_int fps))).
Proof.
  intros H. destruct (while_step_ladder _ H) as (init & Heq & _).
  unfold build_offs. rewrite (py_index_last _ 1).
  - cbn. by rewrite decide_False by (intros ?; done).
  - rewrite Heq. apply last_snoc.
Qed.

Lemma build_offs_Raise (fps : Q) :
  py_int fps < 1 → build_offs fps = ([], Raise IndexError).
Proof. intros H. unfold build_offs. by rewrite while_step_lt. Qed.

(** C5: when [floor fps] is at least one, the ladder is a sequence of
    positive integers, strictly decreasing and so without duplicates, that
    starts with [floor fps] and ends in a single [1]. *)
Theorem build_offs_ladder (fps : Q) :
  1 ≤ Qfloor fps →
  ∃ offs init,
    build_offs fps = ([], Ok offs) ∧
    Forall (λ o, 1 ≤ o) offs ∧
    StronglySorted Z.gt offs ∧
    NoDup offs ∧
    head offs = Some (Qfloor fps) ∧
    offs = init ++ [1] ∧ Forall (λ o, 1 < o) init.
Proof.
  intros Hf.
  assert (0 <= fps)%Q as Hpos.
  { destruct (Qlt_le_dec fps 0) as [Hlt|]; [|done].
    apply Qlt_le_weak, Qfloor_resp_le in Hlt. change (Qfloor 0) with 0 in Hlt. lia. }
  rewrite <-py_int_floor in * by done.
  destruct (while_step_ladder _ Hf) as (init & Heq & Hinit & Hall & Hsort & Hhd).
  exists (while_step [] (py_int fps)), init. split_and!; try done.
  - by apply build_offs_Ok.
  - eapply Forall_impl; [exact Hall|]; cbn; lia.
  - clear -Hsort. induction Hsort as [|x l Hs IH Hx]; constructor; [|done].
    intros Hin. rewrite Forall_forall in Hx. specialize (Hx _ Hin). lia.
Qed.

Lemma build_offs_ladder_witness :
  1 ≤ Qfloor 30 ∧
  ∃ offs init,
    build_offs 30 = ([], Ok offs) ∧
    Forall (λ o, 1 ≤ o) offs ∧
    StronglySorted Z.gt offs ∧
    NoDup offs ∧
    head offs = Some (Qfloor 30) ∧
    offs = init ++ [1] ∧ Forall (λ o, 1 < o) init.
Proof.
  split; [vm_compute; discriminate|].
  apply (build_offs_ladder 30). vm_compute. discriminate.
Defined.

(** ** The scanner *)

Lemma py_index_Ok {A} (l : list A) (i : Z) :
  0 ≤ i < Z.of_nat (length l) →
  ∃ x, py_index l i = ([], Ok x) ∧ l !! Z.to_nat i = Some x.
Proof.
  intros Hi. unfold py_index. cbv zeta.
  destruct (decide (i < 0)); [lia|]. rewrite decide_True by done.
  destruct (lookup_lt_is_Some_2 l (Z.to_nat i)) as [x Hx]; [lia|].
  rewrite Hx. eauto.
Qed.

Lemma elem_of_py_range (i lo hi : Z) : i ∈ py_range lo hi ↔ lo ≤ i < hi.
Proof. unfold py_range. rewrite elem_of_seqZ. lia. Qed.

Section ScannerProps.

Context (thr : Z) (ratio : Q) (frames : list (list Z)).

Abbreviation N := (n_frames frames).

Lemma compare_frames_run base cand :
  0 ≤ base < N → 0 ≤ cand < N →
  let m := compare_frames thr ratio frames base cand in
  compared m.1 = [] ∧ bases m.1 = [] ∧ m.2 ≠ NoFuel ∧ m.2 ≠ Raise IndexError.
Proof.
  intros Hb Hc. unfold compare_frames.
  destruct (py_index_Ok frames base Hb) as (fb & -> & _).
  destruct (py_index_Ok frames cand Hc) as (fc & -> & _).
  rewrite !bind_run. cbn. apply is_similar_arr_run.
Qed.

Lemma for_cand_run redundant base candidates :
  0 ≤ base → (∀ c, c ∈ candidates → base < c < N) →
  let m := for_cand thr ratio frames redundant base candidates in
  (∀ b c, (b, c) ∈ compared m.1 → b = base ∧ c ∈ candidates) ∧
  bases m.1 = [] ∧ m.2 ≠ NoFuel ∧ m.2 ≠ Raise IndexError ∧
  (∀ redundant' base', m.2 = Ok (redundant', base') →
     (redundant' = redundant ∧ base' = Z.min (base + 10) (N - 1)) ∨
     (∃ c, c ∈ candidates ∧
        redundant' = redundant ∪ list_to_set (py_range (base + 1) (c + 1)) ∧
        base' = c + 1)).
Proof.
  intros Hb. induction candidates as [|cand rest IH]; intros Hin; cbn [for_cand].
  - cbn. split_and!; try done.
    + intros b c H. by apply elem_of_nil in H.
    + intros ?? [= <- <-]. by left.
  - destruct (compare_frames_run base cand) as (Hc1 & Hc2 & Hc3 & Hc4);
      [specialize (Hin cand ltac:(left)); lia..|].
    destruct IH as (I1 & I2 & I3 & I4 & I5).
    { intros c Hc. apply Hin. by right. }
    rewrite bind_run. cbn [print]. rewrite bind_run.
    destruct (compare_frames thr ratio frames base cand) as [t [[|]|e|]];
      cbn [fst snd] in Hc1, Hc2, Hc3, Hc4; cbn -[for_cand compared bases];
      trace_simpl; rewrite ?Hc1, ?Hc2, ?I2.
    + split_and!; try done.
      * intros b c [= -> ->]%list_elem_of_singleton. split; [done|left].
      * intros ?? [= <- <-]. right. exists cand. split; [left|done].
    + split_and!; try done.
      * intros b c [[= -> ->]|H]%elem_of_cons; [split; [done|left]|].
        destruct (I1 _ _ H). split; [done|by right].
      * intros r' b' H. destruct (I5 _ _ H) as [?|(c & ? & ?)]; [by left|].
        right. exists c. split; [by right|done].
    + split_and!; try done.
      * intros b c [= -> ->]%list_elem_of_singleton. split; [done|left].
      * intros [= ->]. by apply Hc4.
    + done.
Qed.

Lemma candidates_of_elem offs base c :
  Forall (λ o, 1 ≤ o) offs →
  c ∈ candidates_of frames offs base → base < c < N.
Proof.
  intros Hoffs (o & -> & [Hlt Ho]%list_elem_of_filter)%list_elem_of_fmap.
  rewrite Forall_forall in Hoffs. specialize (Hoffs _ Ho). lia.
Qed.

Lemma outer_iter_run offs redundant base :
  Forall (λ o, 1 ≤ o) offs → 0 ≤ base →
  let m := outer_iter thr ratio frames offs redundant base in
  (∀ b c, (b, c) ∈ compared m.1 → b = base ∧ base < c < N) ∧
  bases m.1 = [base] ∧ m.2 ≠ NoFuel ∧ m.2 ≠ Raise IndexError ∧
  (∀ redundant' base', m.2 = Ok (redundant', base') →
     (redundant' = redundant ∧ base' = Z.min (base + 10) (N - 1)) ∨
     (∃ c, base < c < N ∧
        redundant' = redundant ∪ list_to_set (py_range (base + 1) (c + 1)) ∧
        base' = c + 1)).
Proof.
  intros Hoffs Hb.
  destruct (for_cand_run redundant base (candidates_of frames offs base) Hb)
    as (I1 & I2 & I3 & I4 & I5).
  { intros c. by apply candidates_of_elem. }
  unfold outer_iter. rewrite !bind_run. cbn -[for_cand compared bases].
  trace_simpl. rewrite I2. split_and!; try done.
  - intros b c H. destruct (I1 _ _ H) as [-> Hc]. split; [done|].
    by eapply candidates_of_elem.
  - intros r' b' H. destruct (I5 _ _ H) as [?|(c & Hc & ?)]; [by left|].
    right. exists c. split; [by eapply candidates_of_elem|done].
Qed.

Lemma while_base_run fuel offs redundant base :
  Forall (λ o, 1 ≤ o) offs → 0 ≤ base →
  (∀ i, i ∈ redundant → 1 ≤ i < base ∧ i < N) →
  let m := while_base thr ratio frames fuel offs redundant base in
  (∀ b c, (b, c) ∈ compared m.1 → 0 ≤ b < c ∧ c < N) ∧
  (∀ b, b ∈ bases m.1 → base ≤ b < N - 1) ∧
  (length (bases m.1) ≤ fuel)%nat ∧
  m.2 ≠ Raise IndexError ∧
  ((Z.to_nat (N - 1 - base) ≤ fuel)%nat → m.2 ≠ NoFuel) ∧
  (∀ redundant', m.2 = Ok redundant' →
     (∀ i, i ∈ redundant' → 1 ≤ i < N) ∧
     (∀ i, i ∈ redundant' → i ∈ redundant ∨ base < i) ∧
     (∀ b, b ∈ bases m.1 → b ∉ redundant')).
Proof.
  intros Hoffs. revert redundant base.
  induction fuel as [|fuel IH]; intros redundant base Hb Hinv;
    cbn [while_base]; case_decide as Hlt.
  - cbn. split_and!; try done; try lia.
    + by intros ?? ?%elem_of_nil.
    + by intros ? ?%elem_of_nil.
  - cbn. split_and!; try done.
    + by intros ?? ?%elem_of_nil.
    + by intros ? ?%elem_of_nil.
    + intros r' [= <-]. split_and!; [| by left | by intros ? ?%elem_of_nil].
      intros i Hi. specialize (Hinv _ Hi). lia.
  - destruct (outer_iter_run offs redundant base Hoffs Hb)
      as (O1 & O2 & O3 & O4 & O5).
    rewrite bind_run.
    destruct (outer_iter thr ratio frames offs redundant base)
      as [t [[red1 base1]|e|]]; cbn [fst snd] in O1, O2, O3, O4, O5;
      cbn -[while_base compared bases]; trace_simpl; rewrite ?O2.
    + assert (base < base1 ∧
              ∀ i, i ∈ red1 → (i ∈ redundant ∨ base < i) ∧ 1 ≤ i < base1 ∧ i < N)
        as [Hprog Hred1].
      { destruct (O5 _ _ eq_refl) as [[-> ->]|(c & Hc & -> & ->)].
        - split; [lia|]. intros i Hi. specialize (Hinv _ Hi). split; [by left|lia].
        - split; [lia|]. intros i [Hi|Hi]%elem_of_union.
          + specialize (Hinv _ Hi). split; [by left|lia].
          + apply elem_of_list_to_set, elem_of_py_range in Hi. split; [right|]; lia. }
      destruct (IH red1 base1) as (W1 & W2 & W3 & W4 & W5 & W6); [lia| |].
      { intros i Hi. destruct (Hred1 _ Hi) as (_ & ? & ?). done. }
      split_and!.
      * intros b c [H|H]%elem_of_app; [|by apply W1].
        destruct (O1 _ _ H) as [-> ?]. lia.
      * intros b [->|H]%elem_of_cons; [lia|]. specialize (W2 _ H). lia.
      * cbn. lia.
      * done.
      * intros Hf. apply W5. lia.
      * intros r' Hr'. destruct (W6 _ Hr') as (R1 & R2 & R3). split_and!.
        -- done.
        -- intros i Hi. destruct (R2 _ Hi) as [Hi1|?]; [|right; lia].
           destruct (Hred1 _ Hi1) as (? & _). done.
        -- intros b [->|H]%elem_of_cons; [|by apply R3].
           intros Hi. destruct (R2 _ Hi) as [Hi1|?]; [|lia].
           destruct (Hred1 _ Hi1) as ([Hi0|?] & _); [|lia].
           specialize (Hinv _ Hi0). lia.
    + split_and!; try done.
      * intros b c H. destruct (O1 _ _ H) as [-> ?]. lia.
      * intros b ->%list_elem_of_singleton. lia.
      * cbn. lia.
      * intros [= ->]. by apply O4.
    + done.
  - cbn. split_and!; try done; try lia.
    + by intros ?? ?%elem_of_nil.
    + by intros ? ?%elem_of_nil.
    + intros r' [= <-]. split_and!; [| by left | by intros ? ?%elem_of_nil].
      intros i Hi. specialize (Hinv _ Hi). lia.
Qed.

Lemma outer_iter_progress offs redundant base t red1 base1 :
  Forall (λ o, 1 ≤ o) offs → 0 ≤ base < N - 1 →
  (∀ i, i ∈ redundant → 1 ≤ i < base ∧ i < N) →
  outer_iter thr ratio frames offs redundant base = (t, Ok (red1, base1)) →
  base + 1 ≤ base1 ≤ N ∧
  ∀ i, i ∈ red1 → 1 ≤ i < base1 ∧ i < N.
Proof.
  intros Hoffs [Hb Hlt] Hinv Hrun.
  destruct (outer_iter_run offs redundant base Hoffs Hb) as (_ & _ & _ & _ & O5).
  rewrite Hrun in O5.
  destruct (O5 _ _ eq_refl) as [[-> ->]|(c & Hc & -> & ->)].
  - split; [lia|]. intros i Hi. specialize (Hinv _ Hi). lia.
  - split; [lia|]. intros i [Hi|Hi]%elem_of_union.
    + specialize (Hinv _ Hi). lia.
    + apply elem_of_list_to_set, elem_of_py_range in Hi. lia.
Qed.

Lemma while_base_bases_sorted fuel offs redundant base :
  Forall (λ o, 1 ≤ o) offs → 0 ≤ base →
  (∀ i, i ∈ redundant → 1 ≤ i < base ∧ i < N) →
  StronglySorted Z.lt (bases (while_base thr ratio frames fuel offs redundant base).1).
Proof.
  intros Hoffs. revert redundant base.
  induction fuel as [|fuel IH]; intros redundant base Hb Hinv;
    cbn [while_base]; case_decide as Hlt; try by constructor.
  destruct (outer_iter_run offs redundant base Hoffs Hb) as (_ & O2 & _).
  rewrite bind_run.
  destruct (outer_iter thr ratio frames offs redundant base)
    as [t [[red1 base1]|e|]] eqn:Hrun; cbn [fst snd] in O2;
    cbn -[while_base bases]; trace_simpl; rewrite ?O2;
    [|repeat constructor..].
  destruct (outer_iter_progress offs redundant base t red1 base1)
    as [Hprog Hred1]; [done..|].
  constructor.
  - apply IH; [lia|done].
  - destruct (while_base_run fuel offs red1 base1) as (_ & W2 & _);
      [done|lia|done|].
    apply Forall_forall. intros b Hbs. specialize (W2 _ Hbs). lia.
Qed.

End ScannerProps.

(** ** [sorted] *)

Lemma elem_of_sorted (s : gset Z) (i : Z) : i ∈ sorted s ↔ i ∈ s.
Proof. unfold sorted. by rewrite merge_sort_Permutation, elem_of_elements. Qed.

Lemma NoDup_sorted (s : gset Z) : NoDup (sorted s).
Proof. unfold sorted. rewrite merge_sort_Permutation. apply NoDup_elements. Qed.

Lemma StronglySorted_le_lt (l : list Z) :
  StronglySorted Z.le l → NoDup l → StronglySorted Z.lt l.
Proof.
  induction 1 as [|x l Hs IH Hx]; intros Hnd; [constructor|].
  apply NoDup_cons in Hnd as [Hnin Hnd]. constructor; [by apply IH|].
  apply Forall_forall. intros y Hy. rewrite Forall_forall in Hx.
  specialize (Hx _ Hy). assert (x ≠ y) by (by intros ->). lia.
Qed.

Lemma sorted_ascending (s : gset Z) : StronglySorted Z.lt (sorted s).
Proof.
  apply StronglySorted_le_lt; [|apply NoDup_sorted].
  unfold sorted. apply (StronglySorted_merge_sort _).
Qed.

(** ** The whole scan *)

Lemma find_redundant_ranges_run thr ratio frames fps :
  1 ≤ py_int fps →
  find_redundant_ranges thr ratio frames fps =
  let m := while_base thr ratio frames (Z.to_nat (n_frames frames))
             (while_step [] (py_int fps)) ∅ 0 in
  (m.1, match m.2 with
        | Ok redundant => Ok (sorted redundant)
        | Raise e => Raise e
        | NoFuel => NoFuel
        end).
Proof.
  intros Hf. unfold find_redundant_ranges. rewrite (build_offs_Ok _ Hf).
  unfold bind at 1. cbn -[while_base bind]. rewrite bind_run.
  destruct (while_base _ _ _ _ _ _ _) as [t [r|e|]]; cbn; [|done..].
  by rewrite app_nil_r.
Qed.

Lemma find_redundant_ranges_no_ladder thr ratio frames fps :
  py_int fps < 1 →
  find_redundant_ranges thr ratio frames fps = ([], Raise IndexError).
Proof.
  intros Hf. unfold find_redundant_ranges. by rewrite (build_offs_Raise _ Hf).
Qed.

Lemma while_step_positive step : Forall (λ o, 1 ≤ o) (while_step [] step).
Proof.
  destruct (decide (1 ≤ step)) as [Hs|Hs].
  - destruct (while_step_ladder _ Hs) as (_ & _ & _ & Hall & _).
    eapply Forall_impl; [exact Hall|]; cbn; lia.
  - rewrite while_step_lt by lia. constructor.
Qed.

(** C4: a sequence that the scanner returns is strictly ascending without
    duplicates, each of its indices lies in [1, N) (so it is empty when
    [N <= 1]), and no index printed as a base of the scan occurs in it. *)
Theorem find_redundant_ranges_result thr ratio frames fps tr res :
  find_redundant_ranges thr ratio frames fps = (tr, Ok res) →
  StronglySorted Z.lt res ∧ NoDup res ∧
  (∀ i, i ∈ res → 1 ≤ i < n_frames frames) ∧
  (n_frames frames ≤ 1 → res = []) ∧
  (∀ b, b ∈ bases tr → b ∉ res).
Proof.
  intros Hrun. destruct (decide (1 ≤ py_int fps)) as [Hf|Hf];
    [|by rewrite find_redundant_ranges_no_ladder in Hrun by lia].
  rewrite (find_redundant_ranges_run _ _ _ _ Hf) in Hrun. cbv zeta in Hrun.
  destruct (while_base_run thr ratio frames (Z.to_nat (n_frames frames))
              (while_step [] (py_int fps)) ∅ 0)
    as (_ & _ & _ & _ & _ & W6);
    [apply while_step_positive | done | set_solver |].
  destruct (while_base _ _ _ _ _ _ _) as [t [r|e|]]; [|done..].
  cbn in Hrun, W6. injection Hrun as -> <-.
  destruct (W6 _ eq_refl) as (R1 & _ & R3).
  assert (∀ i, i ∈ sorted r → 1 ≤ i < n_frames frames) as Hbnd.
  { intros i Hi%elem_of_sorted. by apply R1. }
  split_and!.
  - apply sorted_ascending.
  - apply NoDup_sorted.
  - done.
  - intros HN. destruct (sorted r) as [|i l]; [done|].
    specialize (Hbnd i ltac:(left)). lia.
  - intros b Hb Hi%elem_of_sorted. by apply (R3 b).
Qed.

(** The first scenario of section 8 of the specification. *)
Example five_solid_run :
  find_redundant_ranges THRESHOLD_ZERO_BITS_default SIMILARITY_RATIO_default
    five_solid_frames 2 =
  (five_solid_trace, Ok [1; 2; 4]).
Proof. vm_compute. reflexivity. Qed.

Lemma find_redundant_ranges_result_witness :
  StronglySorted Z.lt [1; 2; 4] ∧ NoDup [1; 2; 4] ∧
  (∀ i, i ∈ [1; 2; 4] → 1 ≤ i < n_frames five_solid_frames) ∧
  (n_frames five_solid_frames ≤ 1 → [1; 2; 4] = []) ∧
  (∀ b, b ∈ bases five_solid_trace → b ∉ [1; 2; 4]).
Proof.
  apply (find_redundant_ranges_result 17 (7 # 10) five_solid_frames 2
           five_solid_trace [1; 2; 4]).
  vm_compute. reflexivity.
Defined.

(** C6: the scan never needs more than [N] outer iterations.  The bases it
    prints are strictly increasing and lie in [0, N - 1), because an outer
    iteration entered with [base < N - 1] leaves a base at least one larger,
    on a match as on the fallback. *)
Theorem find_redundant_ranges_terminates thr ratio frames fps tr r :
  find_redundant_ranges thr ratio frames fps = (tr, r) →
  r ≠ NoFuel ∧
  StronglySorted Z.lt (bases tr) ∧
  (∀ b, b ∈ bases tr → 0 ≤ b < n_frames frames - 1) ∧
  (length (bases tr) ≤ Z.to_nat (n_frames frames))%nat ∧
  (∀ offs redundant base t redundant' base',
     build_offs fps = ([], Ok offs) → 0 ≤ base < n_frames frames - 1 →
     outer_iter thr ratio frames offs redundant base = (t, Ok (redundant', base')) →
     base + 1 ≤ base').
Proof.
  intros Hrun. destruct (decide (1 ≤ py_int fps)) as [Hf|Hf].
  - rewrite (find_redundant_ranges_run _ _ _ _ Hf) in Hrun. cbv zeta in Hrun.
    pose proof (while_step_positive (py_int fps)) as Hoffs.
    destruct (while_base_run thr ratio frames (Z.to_nat (n_frames frames))
                (while_step [] (py_int fps)) ∅ 0)
      as (_ & W2 & W3 & _ & W5 & _); [done | done | set_solver |].
    pose proof (while_base_bases_sorted thr ratio frames
                  (Z.to_nat (n_frames frames)) (while_step [] (py_int fps)) ∅ 0
                  Hoffs ltac:(done) ltac:(set_solver)) as Hsort.
    destruct (while_base _ _ _ _ _ _ _) as [t r0].
    cbn [fst snd] in *. injection Hrun as -> <-. split_and!; try done.
    + destruct r0; [done..|]. exfalso. apply W5; [lia|done].
    + intros offs redundant base t' redundant' base' Hoffs' Hb Hiter.
      rewrite (build_offs_Ok _ Hf) in Hoffs'. injection Hoffs' as <-.
      destruct (outer_iter_run thr ratio frames _ redundant base Hoffs)
        as (_ & _ & _ & _ & O5); [lia|].
      rewrite Hiter in O5.
      destruct (O5 _ _ eq_refl) as [[_ ->]|(c & ? & _ & ->)]; lia.
  - rewrite find_redundant_ranges_no_ladder in Hrun by lia.
    injection Hrun as <- <-. split_and!; try done.
    + constructor.
    + by intros ? ?%elem_of_nil.
    + cbn. lia.
    + intros offs ?????. by rewrite build_offs_Raise by lia.
Qed.

Lemma find_redundant_ranges_terminates_witness :
  Ok [1; 2; 4] ≠ NoFuel ∧
  StronglySorted Z.lt (bases five_solid_trace) ∧
  (∀ b, b ∈ bases five_solid_trace → 0 ≤ b < n_frames five_solid_frames - 1) ∧
  (length (bases five_solid_trace) ≤ Z.to_nat (n_frames five_solid_frames))%nat ∧
  (∀ offs redundant base t redundant' base',
     build_offs 2 = ([], Ok offs) → 0 ≤ base < n_frames five_solid_frames - 1 →
     outer_iter 17 (7 # 10) five_solid_frames offs redundant base
       = (t, Ok (redundant', base')) →
     base + 1 ≤ base').
Proof.
  apply (find_redundant_ranges_terminates 17 (7 # 10) five_solid_frames 2
           five_solid_trace (Ok [1; 2; 4])).
  vm_compute. reflexivity.
Defined.

(** C10: every comparison of the scan is between a base and a candidate
    with [0 <= base < candidate < N], and no frame read raises [IndexError]:
    the only [IndexError] of a scan is the empty ladder of a frame rate
    below one. *)
Theorem find_redundant_ranges_in_bounds thr ratio frames fps tr r :
  find_redundant_ranges thr ratio frames fps = (tr, r) →
  (∀ b c, (b, c) ∈ compared tr → 0 ≤ b < c ∧ c < n_frames frames) ∧
  (r = Raise IndexError → py_int fps < 1).
Proof.
  intros Hrun. destruct (decide (1 ≤ py_int fps)) as [Hf|Hf].
  - rewrite (find_redundant_ranges_run _ _ _ _ Hf) in Hrun. cbv zeta in Hrun.
    destruct (while_base_run thr ratio frames (Z.to_nat (n_frames frames))
                (while_step [] (py_int fps)) ∅ 0)
      as (W1 & _ & _ & W4 & _);
      [apply while_step_positive | done | set_solver |].
    destruct (while_base _ _ _ _ _ _ _) as [t r0].
    cbn [fst snd] in *. injection Hrun as -> <-. split; [done|].
    destruct r0; [done| |done]. intros [= ->]. done.
  - rewrite find_redundant_ranges_no_ladder in Hrun by lia.
    injection Hrun as <- <-. split; [by intros ?? ?%elem_of_nil|lia].
Qed.

Lemma find_redundant_ranges_in_bounds_witness :
  (∀ b c, (b, c) ∈ compared five_solid_trace →
     0 ≤ b < c ∧ c < n_frames five_solid_frames) ∧
  (Ok [1; 2; 4] = Raise IndexError → py_int 2 < 1).
Proof.
  apply (find_redundant_ranges_in_bounds 17 (7 # 10) five_solid_frames 2
           five_solid_trace (Ok [1; 2; 4])).
  vm_compute. reflexivity.
Defined.

(** ** One outer iteration *)

Lemma py_index_trace {A} (l : list A) (i : Z) : (py_index l i).1 = [].
Proof.
  unfold py_index. cbv zeta. case_decide; [|done].
  by destruct (l !! _).
Qed.

Lemma compare_frames_compared thr ratio frames base cand :
  compared (compare_frames thr ratio frames base cand).1 = [].
Proof.
  unfold compare_frames. rewrite bind_run.
  pose proof (py_index_trace frames base) as H1.
  destruct (py_index frames base) as [t1 [fb|e|]]; cbn in H1; subst t1; [|done..].
  rewrite bind_run.
  pose proof (py_index_trace frames cand) as H2.
  destruct (py_index frames cand) as [t2 [fc|e|]]; cbn in H2; subst t2; [|done..].
  cbn [fst snd app]. apply is_similar_arr_run.
Qed.

Lemma compare_frames_bases thr ratio frames base cand :
  bases (compare_frames thr ratio frames base cand).1 = [].
Proof.
  unfold compare_frames. rewrite bind_run.
  pose proof (py_index_trace frames base) as H1.
  destruct (py_index frames base) as [t1 [fb|e|]]; cbn in H1; subst t1; [|done..].
  rewrite bind_run.
  pose proof (py_index_trace frames cand) as H2.
  destruct (py_index frames cand) as [t2 [fc|e|]]; cbn in H2; subst t2; [|done..].
  cbn [fst snd app]. apply is_similar_arr_run.
Qed.

Section OuterIteration.

Context (thr : Z) (ratio : Q) (frames : list (list Z)).

Abbreviation judged := (judged thr ratio frames).

Lemma for_cand_match redundant base pre c post :
  (∀ x, x ∈ pre → judged base x = Ok false) →
  judged base c = Ok true →
  ∃ tr,
    for_cand thr ratio frames redundant base (pre ++ c :: post) =
      (tr, Ok (redundant ∪ list_to_set (py_range (base + 1) (c + 1)), c + 1)) ∧
    compared tr = (λ x, (base, x)) <$> (pre ++ [c]) ∧ bases tr = [].
Proof.
  intros Hpre Hc. induction pre as [|x pre IH]; cbn [for_cand app].
  - unfold judged in Hc. pose proof (compare_frames_compared thr ratio frames base c) as Hcmp.
    pose proof (compare_frames_bases thr ratio frames base c) as Hbs.
    rewrite bind_run. cbn [print]. rewrite bind_run.
    destruct (compare_frames thr ratio frames base c) as [t r].
    cbn [fst snd] in *. subst r. cbn -[compared bases].
    eexists. split; [done|]. trace_simpl. by rewrite Hcmp, Hbs.
  - destruct IH as (tr & Hrun & Htr & Hbs'); [intros; apply Hpre; by right|].
    pose proof (Hpre x ltac:(left)) as Hx. unfold judged in Hx.
    pose proof (compare_frames_compared thr ratio frames base x) as Hcmp.
    pose proof (compare_frames_bases thr ratio frames base x) as Hbs.
    rewrite bind_run. cbn [print]. rewrite bind_run.
    destruct (compare_frames thr ratio frames base x) as [t r].
    cbn [fst snd] in *. subst r. cbn -[for_cand compared bases app].
    rewrite Hrun. cbn [fst snd].
    eexists. split; [done|]. trace_simpl. by rewrite Hcmp, Hbs, Htr, Hbs'.
Qed.

Lemma for_cand_exhausted redundant base candidates :
  (∀ x, x ∈ candidates → judged base x = Ok false) →
  ∃ tr,
    for_cand thr ratio frames redundant base candidates =
      (tr, Ok (redundant, Z.min (base + 10) (n_frames frames - 1))) ∧
    compared tr = (λ x, (base, x)) <$> candidates ∧ bases tr = [].
Proof.
  intros Hall. induction candidates as [|x rest IH]; cbn [for_cand].
  - eexists. split; [done|]. done.
  - destruct IH as (tr & Hrun & Htr & Hbs'); [intros; apply Hall; by right|].
    pose proof (Hall x ltac:(left)) as Hx. unfold judged in Hx.
    pose proof (compare_frames_compared thr ratio frames base x) as Hcmp.
    pose proof (compare_frames_bases thr ratio frames base x) as Hbs.
    rewrite bind_run. cbn [print]. rewrite bind_run.
    destruct (compare_frames thr ratio frames base x) as [t r].
    cbn [fst snd] in *. subst r. cbn -[for_cand compared bases app].
    rewrite Hrun. cbn [fst snd].
    eexists. split; [done|]. trace_simpl. by rewrite Hcmp, Hbs, Htr, Hbs'.
Qed.

(** C3: one outer iteration entered with [base < N - 1].  The candidates
    are [base + o] for the ladder offsets [o] with [base + o < N], in ladder
    order.  At the first candidate [c] judged similar to the base, exactly
    the indices [base + 1 .. c] join the redundant set, the base becomes
    [c + 1], and no later candidate is compared.  When every candidate is
    judged not similar (or there is none), the redundant set is unchanged
    and the base becomes [min (base + 10) (N - 1)]. *)
Theorem outer_iter_spec offs redundant base :
  base < n_frames frames - 1 →
  let candidates :=
    (λ o, base + o) <$> filter (λ o, base + o < n_frames frames) offs in
  (∀ pre c post,
     candidates = pre ++ c :: post →
     (∀ x, x ∈ pre → judged base x = Ok false) →
     judged base c = Ok true →
     ∃ tr redundant',
       outer_iter thr ratio frames offs redundant base =
         (EvBase base :: EvCandidates candidates :: tr, Ok (redundant', c + 1)) ∧
       (∀ i, i ∈ redundant' ↔ i ∈ redundant ∨ base + 1 ≤ i ≤ c) ∧
       compared tr = (λ x, (base, x)) <$> (pre ++ [c])) ∧
  ((∀ x, x ∈ candidates → judged base x = Ok false) →
     ∃ tr,
       outer_iter thr ratio frames offs redundant base =
         (EvBase base :: EvCandidates candidates :: tr,
          Ok (redundant, Z.min (base + 10) (n_frames frames - 1))) ∧
       compared tr = (λ x, (base, x)) <$> candidates).
Proof.
  intros _ candidates. split.
  - intros pre c post Hcands Hpre Hc.
    destruct (for_cand_match redundant base pre c post Hpre Hc)
      as (tr & Hrun & Htr & _).
    exists tr, (redundant ∪ list_to_set (py_range (base + 1) (c + 1))).
    split_and!; [|intros i|done].
    + unfold outer_iter, candidates_of. fold candidates.
      rewrite Hcands, !bind_run. cbn -[for_cand]. by rewrite Hrun.
    + rewrite elem_of_union, elem_of_list_to_set, elem_of_py_range.
      split; (intros [?|?]; [by left|right; lia]).
  - intros Hall.
    destruct (for_cand_exhausted redundant base candidates Hall)
      as (tr & Hrun & Htr & _).
    exists tr. split; [|done].
    unfold outer_iter, candidates_of. fold candidates.
    rewrite !bind_run. cbn -[for_cand]. by rewrite Hrun.
Qed.

End OuterIteration.

Lemma outer_iter_spec_witness :
  0 < n_frames one_odd_frame - 1 ∧
  ∃ tr redundant',
    outer_iter 17 (7 # 10) one_odd_frame [2; 1] ∅ 0 =
      (EvBase 0 :: EvCandidates [2; 1] :: tr, Ok (redundant', 1 + 1)) ∧
    (∀ i, i ∈ redundant' ↔ i ∈ (∅ : gset Z) ∨ 0 + 1 ≤ i ≤ 1) ∧
    compared tr = [(0, 2); (0, 1)].
Proof.
  split; [vm_compute; reflexivity|].
  destruct (outer_iter_spec 17 (7 # 10) one_odd_frame [2; 1] ∅ 0) as [Hmatch _];
    [vm_compute; reflexivity|].
  apply (Hmatch [2] 1 []).
  - vm_compute. reflexivity.
  - intros x ->%list_elem_of_singleton. vm_compute. reflexivity.
  - vm_compute. reflexivity.
Defined.

(** ** The frame encoder *)

Lemma lor_lt_pow2 (a b n : Z) :
  0 ≤ a < 2 ^ n → 0 ≤ b < 2 ^ n → 0 ≤ Z.lor a b < 2 ^ n.
Proof.
  intros Ha Hb. split; [apply Z.lor_nonneg; lia|].
  destruct (decide (a = 0)) as [->|Ha0]; [rewrite Z.lor_0_l; lia|].
  destruct (decide (b = 0)) as [->|Hb0]; [rewrite Z.lor_0_r; lia|].
  assert (0 < Z.lor a b).
  { pose proof (Z.lor_nonneg a b) as [_ H]. specialize (H ltac:(lia)).
    assert (Z.lor a b ≠ 0); [|lia]. intros H0. apply Z.lor_eq_0_iff in H0. lia. }
  apply Z.log2_lt_pow2; [done|]. rewrite Z.log2_lor by lia.
  apply Z.max_lub_lt; apply Z.log2_lt_pow2; lia.
Qed.

Lemma pack_uint8 (p : rgb) :
  rgb_uint8 p →
  Z.lor (Z.lor (uint32 (Z.shiftl (uint32 (red p)) 16))
               (uint32 (Z.shiftl (uint32 (green p)) 8)))
        (uint32 (blue p)) = pack p ∧
  0 ≤ pack p ≤ 2 ^ 24 - 1.
Proof.
  unfold rgb_uint8, is_uint8, uint32, pack. intros (Hr & Hg & Hb).
  rewrite (Z.mod_small (red p)), (Z.mod_small (green p)), (Z.mod_small (blue p)) by lia.
  rewrite !Z.shiftl_mul_pow2 by lia.
  rewrite !Z.mod_small by lia. split; [done|].
  assert (0 ≤ Z.lor (Z.lor (red p * 2 ^ 16) (green p * 2 ^ 8)) (blue p) < 2 ^ 24);
    [|lia].
  apply lor_lt_pow2; [apply lor_lt_pow2|]; lia.
Qed.

Lemma frame_to_24int_rows (f : frame) :
  frame_to_24int f =
  concat ((λ row : list rgb, (λ p : rgb,
    Z.lor (Z.lor (uint32 (Z.shiftl (uint32 (red p)) 16))
                 (uint32 (Z.shiftl (uint32 (green p)) 8)))
          (uint32 (blue p))) <$> row) <$> f).
Proof.
  unfold frame_to_24int, ravel, or32, shl32, channel. f_equal.
  induction f as [|row f IH]; [done|].
  cbn [fmap list_fmap map zip_with]. rewrite IH. f_equal.
  clear. induction row as [|p row IH]; [done|].
  cbn [fmap list_fmap map zip_with]. by rewrite IH.
Qed.

Lemma concat_lookup_row {A} (rows : list (list A)) (w r c : nat) row x :
  Forall (λ row, length row = w) rows →
  rows !! r = Some row → row !! c = Some x →
  concat rows !! (r * w + c)%nat = Some x.
Proof.
  intros Hw. revert r. induction Hw as [|row0 rows Hlen Hw IH]; intros r Hr Hc.
  - done.
  - destruct r as [|r]; cbn in *.
    + injection Hr as ->. by apply lookup_app_l_Some.
    + rewrite lookup_app_r by lia.
      replace (w + r * w + c - length row0)%nat with (r * w + c)%nat by lia.
      by apply IH.
Qed.

Lemma concat_length_rows {A} (rows : list (list A)) (w : nat) :
  Forall (λ row, length row = w) rows →
  length (concat rows) = (length rows * w)%nat.
Proof.
  induction 1 as [|row rows Hlen Hw IH]; [done|].
  cbn. rewrite length_app, IH. lia.
Qed.

(** C9: the encoding of a [height] by [width] frame of 8-bit pixels has
    [height * width] entries, the entry at flat index [r * width + c] is
    [(red << 16) | (green << 8) | blue] of the pixel in row [r] and column
    [c], and no entry exceeds [2^24 - 1]. *)
Theorem frame_to_24int_spec (height width : nat) (f : frame) :
  frame_shape height width f → frame_uint8 f →
  length (frame_to_24int f) = (height * width)%nat ∧
  (∀ r c row p, f !! r = Some row → row !! c = Some p →
     frame_to_24int f !! (r * width + c)%nat =
       Some (Z.lor (Z.lor (Z.shiftl (red p) 16) (Z.shiftl (green p) 8)) (blue p))) ∧
  Forall (λ v, 0 ≤ v ≤ 2 ^ 24 - 1) (frame_to_24int f).
Proof.
  intros [Hh Hw] Hu8. rewrite frame_to_24int_rows.
  set (enc := λ p : rgb, Z.lor _ _).
  assert (Forall (λ row, length row = width)
            ((λ row : list rgb, enc <$> row) <$> f)) as Hw'.
  { apply Forall_fmap. eapply Forall_impl; [exact Hw|]. cbn. intros row <-.
    apply length_fmap. }
  split_and!.
  - rewrite (concat_length_rows _ width Hw'), length_fmap. by rewrite Hh.
  - intros r c row p Hr Hc.
    apply (concat_lookup_row _ width r c (enc <$> row)); [done|..].
    + by rewrite list_lookup_fmap, Hr.
    + rewrite list_lookup_fmap, Hc. cbn [fmap option_fmap option_map].
      assert (rgb_uint8 p) as Hp.
      { unfold frame_uint8 in Hu8. rewrite Forall_forall in Hu8.
        specialize (Hu8 row ltac:(by eapply list_elem_of_lookup_2)).
        rewrite Forall_forall in Hu8. apply Hu8. by eapply list_elem_of_lookup_2. }
      destruct (pack_uint8 p Hp) as [Heq _]. unfold enc. by rewrite Heq.
  - apply Forall_concat, Forall_fmap.
    eapply Forall_impl; [exact Hu8|]. cbn beta. intros row Hrow.
    apply Forall_fmap. eapply Forall_impl; [exact Hrow|]. intros p Hp.
    destruct (pack_uint8 p Hp) as [Heq Hbound].
    unfold enc, compose. rewrite Heq. exact Hbound.
Qed.

Lemma frame_to_24int_spec_witness :
  (frame_shape 2 2 [[RGB 10 20 30; RGB 255 0 0]; [RGB 0 255 0; RGB 0 0 255]] ∧
   frame_uint8 [[RGB 10 20 30; RGB 255 0 0]; [RGB 0 255 0; RGB 0 0 255]]) ∧
  let f := [[RGB 10 20 30; RGB 255 0 0]; [RGB 0 255 0; RGB 0 0 255]] in
  length (frame_to_24int f) = (2 * 2)%nat ∧
  (∀ r c row p, f !! r = Some row → row !! c = Some p →
     frame_to_24int f !! (r * 2 + c)%nat =
       Some (Z.lor (Z.lor (Z.shiftl (red p) 16) (Z.shiftl (green p) 8)) (blue p))) ∧
  Forall (λ v, 0 ≤ v ≤ 2 ^ 24 - 1) (frame_to_24int f).
Proof.
  assert (frame_shape 2 2 [[RGB 10 20 30; RGB 255 0 0]; [RGB 0 255 0; RGB 0 0 255]])
    as Hshape by (split; [reflexivity|repeat constructor]).
  assert (frame_uint8 [[RGB 10 20 30; RGB 255 0 0]; [RGB 0 255 0; RGB 0 0 255]])
    as Hu8 by (repeat constructor; unfold is_uint8; cbn; lia).
  split; [by split|].
  exact (frame_to_24int_spec 2 2 _ Hshape Hu8).
Defined.

Example frame_to_24int_sample :
  frame_to_24int [[RGB 10 20 30; RGB 255 0 0]; [RGB 0 255 0; RGB 0 0 255]] =
  [660510; 16711680; 65280; 255].
Proof. vm_compute. reflexivity. Qed.

(** ** Where the reshape of the metric succeeds *)

Lemma length_concat_map {A B} (f : A → list B) (k : nat) (l : list A) :
  (∀ x, length (f x) = k) → length (concat (map f l)) = (k * length l)%nat.
Proof.
  intros Hf. induction l as [|x l IH]; cbn; [lia|].
  rewrite length_app, Hf, IH. lia.
Qed.

Lemma length_unpacked (x : list Z) :
  length (unpackbits (view_uint8 x)) = (32 * length x)%nat.
Proof.
  unfold unpackbits, view_uint8.
  rewrite (length_concat_map byte_bits 8) by done.
  rewrite (length_concat_map word_bytes 4) by done. lia.
Qed.

(** An equal-length pair whose pixel count is not a multiple of three makes
    the metric raise. *)
Lemma is_similar_arr_not_multiple_of_3 t r (a b : list Z) :
  length a = length b → (length a `mod` 3 ≠ 0)%nat →
  is_similar_arr t r a b = ([], Raise ValueError).
Proof.
  intros Hlen Hmod. unfold is_similar_arr, zeros_of, bitwise_xor.
  rewrite decide_True by done. rewrite bind_ret_l.
  unfold reshape. rewrite length_unpacked, length_zip_with, <-Hlen, Nat.min_id.
  rewrite decide_False; [by rewrite !bind_raise_l|].
  intros Hrows. apply Hmod.
  pose proof (Nat.div_mod_eq (length a) 3).
  pose proof (Nat.div_mod_eq (32 * length a) 24).
  pose proof (Nat.mod_upper_bound (length a) 3). lia.
Qed.

Lemma zip_with_lxor_self (p : list Z) :
  zip_with Z.lxor p p = replicate (length p) 0.
Proof.
  induction p as [|x p IH]; [done|]. cbn. by rewrite IH, Z.lxor_nilpotent.
Qed.

Lemma unpacked_zeros (n : nat) :
  unpackbits (view_uint8 (replicate n 0)) = replicate (32 * n) 0.
Proof.
  induction n as [|n IH]; [done|].
  replace (32 * S n)%nat with (32 + 32 * n)%nat by lia.
  rewrite replicate_add, <-IH. reflexivity.
Qed.

Lemma rows_of_zeros (k : nat) :
  rows_of k 24 (replicate (24 * k) 0) = replicate k (replicate 24 0).
Proof.
  induction k as [|k IH]; [done|].
  replace (24 * S k)%nat with (24 + 24 * k)%nat by lia.
  cbn [rows_of replicate]. rewrite replicate_add.
  rewrite take_app_length', drop_app_length' by done. by rewrite IH.
Qed.

Lemma map_replicate {A B} (f : A → B) (n : nat) (x : A) :
  map f (replicate n x) = replicate n (f x).
Proof. induction n as [|n IH]; [done|]. cbn. by rewrite IH. Qed.

Lemma zeros_of_self (m : nat) (p : list Z) :
  length p = (3 * m)%nat →
  zeros_of p p = ([], Ok (replicate (4 * m) 24)).
Proof.
  intros Hlen. unfold zeros_of, bitwise_xor.
  rewrite decide_True by done. rewrite bind_ret_l.
  rewrite zip_with_lxor_self, unpacked_zeros, Hlen.
  unfold reshape. rewrite length_replicate.
  replace (32 * (3 * m))%nat with (24 * (4 * m))%nat by lia.
  rewrite decide_True by (rewrite (Nat.mul_comm 24); apply Nat.Div0.mod_mul).
  replace (24 * (4 * m) / 24)%nat with (4 * m)%nat
    by (rewrite (Nat.mul_comm 24), Nat.div_mul; lia).
  rewrite rows_of_zeros, bind_ret_l. unfold ret. do 2 f_equal.
  unfold sum_axis1. by rewrite !map_replicate.
Qed.

Lemma count_matched_all (t : Z) (k : nat) :
  t ≤ 24 → count_matched t (replicate k 24) = Z.of_nat k.
Proof.
  intros Ht. unfold count_matched. f_equal.
  induction k as [|k IH]; [done|]. cbn [replicate].
  rewrite filter_cons_True by done. cbn. by rewrite IH.
Qed.

(** A frame whose pixel count is a positive multiple of three is similar to
    itself at every threshold up to 24 and every ratio up to one. *)
Lemma is_similar_arr_self t r (m : nat) (p : list Z) :
  length p = (3 * m)%nat → (0 < m)%nat → t ≤ 24 → (r <= 1)%Q →
  is_similar_arr t r p p =
    ([EvMatched (Z.of_nat (4 * m)) (Z.of_nat (4 * m))], Ok true).
Proof.
  intros Hlen Hm Ht Hr.
  rewrite (zeros_of_is_similar_arr t r p p (replicate (4 * m) 24)).
  - rewrite count_matched_all, length_replicate by done. do 2 f_equal.
    apply Qle_bool_iff. eapply Qle_trans; [exact Hr|].
    apply Qle_lteq. right. symmetry. apply Qmult_inv_r.
    unfold Qeq. cbn. lia.
  - by apply zeros_of_self.
  - destruct m; [lia|]. done.
Qed.

Example is_similar_arr_self_sample :
  is_similar_arr 24 1 [5; 6; 7] [5; 6; 7] = ([EvMatched 4 4], Ok true).
Proof. vm_compute. reflexivity. Qed.

Lemma length_rows_of (n w : nat) (l : list Z) : length (rows_of n w l) = n.
Proof. revert l. induction n as [|n IH]; intros l; [done|]. cbn. by rewrite IH. Qed.

(** On equal-length frames of [n] pixels the array [zeros] has [4 n / 3]
    entries: one per 24 bits of the [32 n] bits of the XOR. *)
Lemma zeros_of_size (a b : list Z) tr zs :
  length a = length b → zeros_of a b = (tr, Ok zs) →
  (3 * length zs = 4 * length a)%nat.
Proof.
  intros Hlen. unfold zeros_of, bitwise_xor.
  rewrite decide_True by done. rewrite bind_ret_l.
  unfold reshape. rewrite length_unpacked, length_zip_with, <-Hlen, Nat.min_id.
  case_decide as Hmod; [|by rewrite bind_raise_l].
  pose proof (Nat.div_mod_eq (32 * length a) 24) as Hdiv.
  set (q := ((32 * length a) `div` 24)%nat) in *. clearbody q.
  rewrite bind_ret_l. intros [= <- <-].
  unfold sum_axis1. rewrite !length_map, length_rows_of. lia.
Qed.

(** With at most one frame the loop body never runs. *)
Lemma find_redundant_ranges_few_frames thr ratio frames fps :
  1 ≤ py_int fps → n_frames frames ≤ 1 →
  find_redundant_ranges thr ratio frames fps = ([], Ok []).
Proof.
  intros Hf HN. rewrite find_redundant_ranges_run by done. cbv zeta.
  assert (while_base thr ratio frames (Z.to_nat (n_frames frames))
            (while_step [] (py_int fps)) ∅ 0 = ([], Ok ∅)) as ->.
  { destruct (Z.to_nat (n_frames frames)); cbn [while_base];
      by rewrite decide_False by lia. }
  cbn [fst snd]. unfold sorted. by rewrite elements_empty.
Qed.

(** The fallback stride: 25 frames that alternate between all-zero and
    all-one pixels, at one frame per second.  No neighbour matches, the bases
    are 0, 10 and 20, and nothing is marked. *)
Example alternating_run :
  let frames := (λ k, replicate 3 (if Z.even k then 0 else 16777215)) <$> seqZ 0 25 in
  let run := find_redundant_ranges THRESHOLD_ZERO_BITS_default
               SIMILARITY_RATIO_default frames 1 in
  bases run.1 = [0; 10; 20] ∧ compared run.1 = [(0, 1); (10, 11); (20, 21)] ∧
  run.2 = Ok [].
Proof. vm_compute. done. Qed.

(** * Further properties of the code *)

(** ** The metric: which inputs return, and what they report *)







Lemma zeros_of_multiple_of_3 (a b : list Z) :
  length a = length b → (length a `mod` 3 = 0)%nat →
  ∃ zs, zeros_of a b = ([], Ok zs) ∧ (3 * length zs = 4 * length a)%nat.
Proof.
  intros Hlen Hmod.
  assert (∃ zs, zeros_of a b = ([], Ok zs)) as [zs Hzs].
  { unfold zeros_of, bitwise_xor. rewrite decide_True by done.
    rewrite bind_ret_l. unfold reshape.
    rewrite length_unpacked, length_zip_with, <-Hlen, Nat.min_id.
    rewrite decide_True; [rewrite bind_ret_l; by eexists|].
    pose proof (Nat.div_mod_eq (length a) 3).
    pose proof (Nat.div_mod_eq (32 * length a) 24).
    pose proof (Nat.mod_upper_bound (32 * length a) 24). lia. }
  exists zs. split; [done|]. by eapply zeros_of_size.
Qed.





(** X2: two frames of different pixel counts, neither of them a single
    pixel, make the metric raise [ValueError] before it prints. *)
Theorem is_similar_arr_length_mismatch t r (a b : list Z) :
  length a ≠ length b → length a ≠ 1%nat → length b ≠ 1%nat →
  is_similar_arr t r a b = ([], Raise ValueError).
Proof.
  intros Hne Ha Hb. unfold is_similar_arr, zeros_of, bitwise_xor.
  by rewrite !decide_False by done.
Qed.

Lemma is_similar_arr_length_mismatch_witness :
  (length [1; 2; 3] ≠ length [1; 2; 3; 4; 5; 6] ∧
   length [1; 2; 3] ≠ 1%nat ∧ length [1; 2; 3; 4; 5; 6] ≠ 1%nat) ∧
  is_similar_arr 17 (7 # 10) [1; 2; 3] [1; 2; 3; 4; 5; 6] = ([], Raise ValueError).
Proof.
  split; [split_and!; cbn; lia|].
  apply (is_similar_arr_length_mismatch 17 (7 # 10) [1; 2; 3] [1; 2; 3; 4; 5; 6]);
    cbn; lia.
Defined.

Lemma zip_with_replicate_l (f : Z → Z → Z) (x : Z) (b : list Z) :
  zip_with f (replicate (length b) x) b = map (f x) b.
Proof. induction b as [|y b IH]; [done|]. cbn. by rewrite IH. Qed.

Lemma bitwise_xor_broadcast (x : Z) (b : list Z) :
  bitwise_xor [x] b = bitwise_xor (replicate (length b) x) b.
Proof.
  unfold bitwise_xor. rewrite length_replicate.
  rewrite (decide_True (P := length b = length b)) by done.
  rewrite zip_with_replicate_l. cbn [length hd].
  destruct (decide (1%nat = length b)) as [Hb|Hb].
  - destruct b as [|y [|??]]; try done.
  - by rewrite decide_True by done.
Qed.

(** X3: a one-pixel frame is not a length mismatch.  NumPy broadcasts it, so
    the metric compares that pixel with every pixel of the other frame. *)
Theorem is_similar_arr_broadcast t r (x : Z) (b : list Z) :
  is_similar_arr t r [x] b = is_similar_arr t r (replicate (length b) x) b.
Proof. unfold is_similar_arr, zeros_of. by rewrite bitwise_xor_broadcast. Qed.

Lemma zip_with_lxor_comm (a b : list Z) :
  zip_with Z.lxor a b = zip_with Z.lxor b a.
Proof.
  revert b. induction a as [|x a IH]; intros [|y b]; try done.
  cbn. by rewrite IH, Z.lxor_comm.
Qed.

Lemma bitwise_xor_comm (a b : list Z) : bitwise_xor a b = bitwise_xor b a.
Proof.
  unfold bitwise_xor.
  destruct (decide (length a = length b)) as [Hab|Hab].
  - rewrite (decide_True (P := length b = length a)) by done.
    by rewrite zip_with_lxor_comm.
  - rewrite (decide_False (P := length b = length a)) by done.
    destruct (decide (length a = 1%nat)) as [Ha|Ha].
    + rewrite (decide_False (P := length b = 1%nat)) by lia.
      f_equal. apply map_ext. intros y. apply Z.lxor_comm.
    + destruct (decide (length b = 1%nat)) as [Hb|Hb]; [|done].
      f_equal. apply map_ext. intros y. apply Z.lxor_comm.
Qed.

(** X4: the metric is symmetric in its two frames, trace and exceptions
    included. *)
Theorem is_similar_arr_comm t r (a b : list Z) :
  is_similar_arr t r a b = is_similar_arr t r b a.
Proof. unfold is_similar_arr, zeros_of. by rewrite bitwise_xor_comm. Qed.





(** X6: a frame whose pixel count is a positive multiple of three is similar
    to itself at every threshold up to 24 and every ratio up to 1, and every
    row is reported as matched. *)
Theorem is_similar_arr_self_multiple_of_3 t r (p : list Z) :
  (length p `mod` 3 = 0)%nat → p ≠ [] → t ≤ 24 → (r <= 1)%Q →
  ∃ size, 3 * size = 4 * Z.of_nat (length p) ∧
    is_similar_arr t r p p = ([EvMatched size size], Ok true).
Proof.
  intros Hmod Hne Ht Hr.
  pose proof (Nat.div_mod_eq (length p) 3) as Hdiv. rewrite Hmod in Hdiv.
  set (m := (length p `div` 3)%nat) in *. clearbody m.
  assert (length p = (3 * m)%nat) as Hlen by lia.
  assert (0 < m)%nat as Hm by (destruct p; [done|cbn in Hlen; lia]).
  exists (Z.of_nat (4 * m)). split; [lia|].
  by apply is_similar_arr_self.
Qed.

Lemma is_similar_arr_self_multiple_of_3_witness :
  ((length [9; 9; 9] `mod` 3 = 0)%nat ∧ [9; 9; 9] ≠ [] ∧ 24 ≤ 24 ∧ (1 <= 1)%Q) ∧
  ∃ size, 3 * size = 4 * Z.of_nat (length [9; 9; 9]) ∧
    is_similar_arr 24 1 [9; 9; 9] [9; 9; 9] = ([EvMatched size size], Ok true).
Proof.
  assert ((1 <= 1)%Q) as Hr by (vm_compute; discriminate).
  split; [split_and!; [reflexivity|done|lia|exact Hr]|].
  apply (is_similar_arr_self_multiple_of_3 24 1 [9; 9; 9]);
    [reflexivity|done|lia|exact Hr].
Defined.

(** ** The encoder: reading the channels back *)

Lemma testbit_above (x k n : Z) :
  0 ≤ x < 2 ^ k → k ≤ n → Z.testbit x n = false.
Proof.
  intros Hx Hn. destruct (decide (x = 0)) as [->|Hx0]; [apply Z.bits_0|].
  apply Z.bits_above_log2; [lia|].
  assert (Z.log2 x < k); [|lia]. apply Z.log2_lt_pow2; lia.
Qed.

Lemma lor_add_disjoint (hi lo k : Z) :
  0 ≤ k → 0 ≤ lo < 2 ^ k → Z.lor (hi * 2 ^ k) lo = hi * 2 ^ k + lo.
Proof.
  intros Hk Hlo.
  assert (Z.land (hi * 2 ^ k) lo = 0) as Hland.
  { apply Z.bits_inj'. intros n Hn. rewrite Z.land_spec, Z.bits_0.
    destruct (decide (n < k)) as [Hlt|Hge].
    - by rewrite Z.mul_pow2_bits_low.
    - rewrite (testbit_above lo k n) by lia. apply andb_false_r. }
  by rewrite Z.add_nocarry_lxor, Z.lxor_lor.
Qed.

Lemma pack_sum (p : rgb) :
  rgb_uint8 p → pack p = red p * 65536 + green p * 256 + blue p.
Proof.
  unfold rgb_uint8, is_uint8, pack. intros (Hr & Hg & Hb).
  rewrite !Z.shiftl_mul_pow2 by lia.
  rewrite (lor_add_disjoint (red p) (green p * 2 ^ 8) 16) by lia.
  replace (red p * 2 ^ 16 + green p * 2 ^ 8)
    with ((red p * 2 ^ 8 + green p) * 2 ^ 8) by lia.
  rewrite (lor_add_disjoint _ (blue p) 8) by lia. lia.
Qed.

Lemma unpack_pack (p : rgb) : rgb_uint8 p → unpack (pack p) = p.
Proof.
  intros Hp. rewrite (pack_sum p Hp). destruct p as [r g b].
  unfold rgb_uint8, is_uint8 in Hp. cbn [red green blue] in *.
  destruct Hp as (Hr & Hg & Hb). unfold unpack.
  change 255 with (Z.ones 8). rewrite !Z.land_ones by lia.
  rewrite !Z.shiftr_div_pow2 by lia.
  f_equal.
  - change (2 ^ 16) with 65536. Z.div_mod_to_equations. lia.
  - change (2 ^ 8) with 256. Z.div_mod_to_equations. lia.
  - change (2 ^ 8) with 256. Z.div_mod_to_equations. lia.
Qed.

Lemma length_frame_to_24int (height width : nat) (f : frame) :
  frame_shape height width f →
  length (frame_to_24int f) = (height * width)%nat.
Proof.
  intros [Hh Hw]. rewrite frame_to_24int_rows.
  rewrite (concat_length_rows _ width), length_fmap; [by rewrite Hh|].
  apply Forall_fmap. eapply Forall_impl; [exact Hw|]. cbn beta.
  intros row <-. apply length_fmap.
Qed.

Lemma unpack_frame_to_24int (f : frame) :
  frame_uint8 f → unpack <$> frame_to_24int f = concat f.
Proof.
  intros Hu8. rewrite frame_to_24int_rows.
  induction Hu8 as [|row f Hrow Hf IH]; [done|].
  cbn [fmap list_fmap concat]. rewrite fmap_app. f_equal; [|exact IH].
  clear -Hrow. induction Hrow as [|p row Hp Hrow IH]; [done|].
  cbn [fmap list_fmap]. f_equal; [|exact IH].
  destruct (pack_uint8 p Hp) as [-> _]. by apply unpack_pack.
Qed.

Lemma concat_inj_rows {A} (w : nat) (f g : list (list A)) :
  Forall (λ row, length row = w) f → Forall (λ row, length row = w) g →
  length f = length g → concat f = concat g → f = g.
Proof.
  intros Hf. revert g. induction Hf as [|row f Hrow Hf IH];
    intros [|row' g] Hg Hlen Heq; try done.
  apply Forall_cons in Hg as [Hrow' Hg]. cbn in Hlen, Heq.
  apply app_inj_1 in Heq as [-> Heq]; [|congruence].
  f_equal. apply IH; [done|lia|done].
Qed.

(** X7: the encoding loses nothing.  Reading bits 23-16, 15-8 and 7-0 of
    every packed value gives back the pixels of the frame in row-major order,
    so two 8-bit frames of the same shape with the same encoding are the same
    frame. *)
Theorem frame_to_24int_round_trip (height width : nat) (f g : frame) :
  frame_shape height width f → frame_uint8 f →
  frame_shape height width g → frame_uint8 g →
  unpack <$> frame_to_24int f = concat f ∧
  (frame_to_24int f = frame_to_24int g → f = g).
Proof.
  intros [Hfh Hfw] Hf8 [Hgh Hgw] Hg8. split; [by apply unpack_frame_to_24int|].
  intros Heq. apply (concat_inj_rows width); [done|done|congruence|].
  by rewrite <-(unpack_frame_to_24int f), <-(unpack_frame_to_24int g), Heq.
Qed.

Lemma frame_to_24int_round_trip_witness :
  let f := [[RGB 10 20 30; RGB 255 0 0]; [RGB 0 255 0; RGB 0 0 255]] in
  (frame_shape 2 2 f ∧ frame_uint8 f) ∧
  unpack <$> frame_to_24int f = concat f ∧
  (frame_to_24int f = frame_to_24int f → f = f).
Proof.
  assert (frame_shape 2 2 [[RGB 10 20 30; RGB 255 0 0]; [RGB 0 255 0; RGB 0 0 255]])
    as Hshape by (split; [reflexivity|repeat constructor]).
  assert (frame_uint8 [[RGB 10 20 30; RGB 255 0 0]; [RGB 0 255 0; RGB 0 0 255]])
    as Hu8 by (repeat constructor; unfold is_uint8; cbn; lia).
  split; [by split|].
  exact (frame_to_24int_round_trip 2 2 _ _ Hshape Hu8 Hshape Hu8).
Defined.

(** X8: encoder and metric together.  Two frames of the same [height] by
    [width] shape, with at least one pixel, never reach the length-mismatch
    path of the metric; the comparison of their encodings returns a verdict
    when three divides [height * width] and raises [ValueError] otherwise. *)
Theorem is_similar_arr_frames t r (height width : nat) (f g : frame) :
  frame_shape height width f → frame_shape height width g →
  (0 < height * width)%nat →
  match (is_similar_arr t r (frame_to_24int f) (frame_to_24int g)).2 with
  | Ok _ => ((height * width) `mod` 3 = 0)%nat
  | Raise e => e = ValueError ∧ ((height * width) `mod` 3 ≠ 0)%nat
  | NoFuel => False
  end.
Proof.
  intros Hf Hg Hpos.
  pose proof (length_frame_to_24int _ _ _ Hf) as Hlf.
  pose proof (length_frame_to_24int _ _ _ Hg) as Hlg.
  destruct (decide ((height * width) `mod` 3 = 0)%nat) as [Hmod|Hmod].
  - destruct (zeros_of_multiple_of_3 (frame_to_24int f) (frame_to_24int g))
      as (zs & Hzs & Hsize); [congruence|by rewrite Hlf|].
    rewrite (zeros_of_is_similar_arr _ _ _ _ zs Hzs); [done|].
    intros ->. cbn in Hsize. lia.
  - rewrite is_similar_arr_not_multiple_of_3; [done|congruence|by rewrite Hlf].
Qed.

Lemma is_similar_arr_frames_witness :
  let f := [[RGB 10 20 30; RGB 255 0 0; RGB 1 2 3]] in
  let g := [[RGB 10 20 31; RGB 0 0 0; RGB 1 2 3]] in
  (frame_shape 1 3 f ∧ frame_shape 1 3 g ∧ (0 < 1 * 3)%nat) ∧
  match (is_similar_arr 17 (7 # 10) (frame_to_24int f) (frame_to_24int g)).2 with
  | Ok _ => ((1 * 3) `mod` 3 = 0)%nat
  | Raise e => e = ValueError ∧ ((1 * 3) `mod` 3 ≠ 0)%nat
  | NoFuel => False
  end.
Proof.
  assert (frame_shape 1 3 [[RGB 10 20 30; RGB 255 0 0; RGB 1 2 3]])
    as Hf by (split; [reflexivity|repeat constructor]).
  assert (frame_shape 1 3 [[RGB 10 20 31; RGB 0 0 0; RGB 1 2 3]])
    as Hg by (split; [reflexivity|repeat constructor]).
  split; [split_and!; [done|done|lia]|].
  apply (is_similar_arr_frames 17 (7 # 10) 1 3 _ _ Hf Hg). lia.
Defined.

(** ** The ladder in closed form *)

Lemma while_step_closed_form step :
  1 ≤ step →
  while_step [] step = (λ k, step `div` 2 ^ k) <$> seqZ 0 (Z.log2 step + 1).
Proof.
  remember (Z.to_nat step) as n eqn:Hn.
  revert step Hn. induction n as [n IH] using lt_wf_ind.
  intros step -> Hs. rewrite while_step_cons by done.
  destruct (decide (step = 1)) as [->|Hne].
  - change (1 `div` 2) with 0. by rewrite while_step_lt by lia.
  - assert (1 ≤ step `div` 2) as Hh by (apply Z.div_le_lower_bound; lia).
    assert (step `div` 2 < step) as Hlt by (apply Z.div_lt; lia).
    rewrite (IH (Z.to_nat (step `div` 2)) ltac:(lia) _ eq_refl Hh).
    assert (Z.log2 step = Z.log2 (step `div` 2) + 1) as Hlog.
    { pose proof (Z.log2_shiftr step 1 ltac:(lia)) as Hsh.
      rewrite Z.shiftr_div_pow2 in Hsh by lia. change (2 ^ 1) with 2 in Hsh.
      assert (1 ≤ Z.log2 step) by (apply (Z.log2_le_mono 2); lia). lia. }
    pose proof (Z.log2_nonneg (step `div` 2)) as Hnn.
    rewrite Hlog, (seqZ_cons 0 (Z.log2 (step `div` 2) + 1 + 1)) by lia.
    cbn [fmap list_fmap]. rewrite Z.pow_0_r, Z.div_1_r. f_equal.
    replace (Z.pred (Z.log2 (step `div` 2) + 1 + 1))
      with (Z.log2 (step `div` 2) + 1) by lia.
    change (Z.succ 0) with (1 + 0).
    rewrite <-(fmap_add_seqZ 1 0), <-list_fmap_compose.
    apply list_fmap_ext. intros i k Hk%lookup_seqZ. cbn.
    rewrite Z.div_div by lia. f_equal.
    rewrite Z.pow_add_r by lia. done.
Qed.

(** X9: for a frame rate of at least one the ladder is the full halving
    chain [int(fps) // 2^k] for [k = 0 .. log2 (int fps)].  It has
    [log2 (int fps) + 1] offsets (the five of the docstring for rates from 16
    to 31), and the append of line 63 never fires. *)
Theorem build_offs_closed_form (fps : Q) :
  (1 <= fps)%Q →
  build_offs fps =
    ([], Ok ((λ k, py_int fps `div` 2 ^ k) <$> seqZ 0 (Z.log2 (py_int fps) + 1))) ∧
  Z.of_nat (length (while_step [] (py_int fps))) = Z.log2 (py_int fps) + 1.
Proof.
  intros Hfps.
  assert (1 ≤ py_int fps) as Hf.
  { rewrite py_int_floor by (eapply Qle_trans; [|exact Hfps]; done).
    change 1 with (Qfloor 1). by apply Qfloor_resp_le. }
  rewrite (build_offs_Ok _ Hf), (while_step_closed_form _ Hf). split; [done|].
  rewrite length_fmap, length_seqZ. pose proof (Z.log2_nonneg (py_int fps)). lia.
Qed.

Lemma build_offs_closed_form_witness :
  (1 <= 30)%Q ∧
  build_offs 30 =
    ([], Ok ((λ k, py_int 30 `div` 2 ^ k) <$> seqZ 0 (Z.log2 (py_int 30) + 1))) ∧
  Z.of_nat (length (while_step [] (py_int 30))) = Z.log2 (py_int 30) + 1.
Proof.
  assert ((1 <= 30)%Q) as H by (vm_compute; discriminate).
  split; [exact H|]. exact (build_offs_closed_form 30 H).
Defined.

(** ** The scanner at its edges *)

Lemma py_int_lt_1 (fps : Q) : (fps < 1)%Q → py_int fps < 1.
Proof.
  destruct fps as [n d]. unfold Qlt, py_int. cbn. intros Hlt.
  destruct (decide (0 ≤ n)) as [Hn|Hn].
  - rewrite Z.quot_small by lia. lia.
  - rewrite <-(Z.opp_involutive n), Z.quot_opp_l by lia.
    pose proof (Z.quot_pos (- n) (Z.pos d) ltac:(lia) ltac:(lia)). lia.
Qed.

Lemma py_int_ge_1 (fps : Q) : (1 <= fps)%Q → 1 ≤ py_int fps.
Proof.
  intros Hfps. rewrite py_int_floor by (eapply Qle_trans; [|exact Hfps]; done).
  change 1 with (Qfloor 1). by apply Qfloor_resp_le.
Qed.

(** X10: a frame rate below one makes the scan raise [IndexError] at
    [offs[-1]], before anything is printed and whatever the frames are, the
    empty sequence included. *)
Theorem find_redundant_ranges_low_fps thr ratio frames (fps : Q) :
  (fps < 1)%Q →
  find_redundant_ranges thr ratio frames fps = ([], Raise IndexError).
Proof.
  intros Hfps. apply find_redundant_ranges_no_ladder. by apply py_int_lt_1.
Qed.

Lemma find_redundant_ranges_low_fps_witness :
  (1 # 2 < 1)%Q ∧
  find_redundant_ranges 17 (7 # 10) five_solid_frames (1 # 2) =
    ([], Raise IndexError).
Proof.
  assert ((1 # 2 < 1)%Q) as H by (vm_compute; reflexivity).
  split; [exact H|].
  exact (find_redundant_ranges_low_fps 17 (7 # 10) five_solid_frames (1 # 2) H).
Defined.

(** X11: with a frame rate of at least one and at most one frame the loop
    body never runs: no frame is read, nothing is printed and the result is
    the empty list. *)
Theorem find_redundant_ranges_at_most_one_frame thr ratio frames (fps : Q) :
  (1 <= fps)%Q → (length frames ≤ 1)%nat →
  find_redundant_ranges thr ratio frames fps = ([], Ok []).
Proof.
  intros Hfps Hlen. apply find_redundant_ranges_few_frames.
  - by apply py_int_ge_1.
  - unfold n_frames. lia.
Qed.

Lemma find_redundant_ranges_at_most_one_frame_witness :
  ((1 <= 30)%Q ∧ (length [[1; 2; 3; 4]] ≤ 1)%nat) ∧
  find_redundant_ranges 17 (7 # 10) [[1; 2; 3; 4]] 30 = ([], Ok []).
Proof.
  assert ((1 <= 30)%Q) as H by (vm_compute; discriminate).
  split; [split; [exact H|cbn; lia]|].
  apply (find_redundant_ranges_at_most_one_frame 17 (7 # 10) [[1; 2; 3; 4]] 30 H).
  cbn. lia.
Defined.

(** ** What a returned result is made of *)

Lemma matches_app t1 t2 : matches (t1 ++ t2) = matches t1 ++ matches t2.
Proof. apply omap_app. Qed.

Lemma advances_app t1 t2 : advances (t1 ++ t2) = advances t1 ++ advances t2.
Proof. apply omap_app. Qed.

Lemma matches_cons ev t :
  matches (ev :: t) =
  match ev with EvMatch lo hi => (lo, hi) :: matches t | _ => matches t end.
Proof. by destruct ev. Qed.

Lemma advances_cons ev t :
  advances (ev :: t) =
  match ev with EvAdvance b => b :: advances t | _ => advances t end.
Proof. by destruct ev. Qed.

Lemma matches_nil : matches [] = [].
Proof. done. Qed.

Lemma advances_nil : advances [] = [].
Proof. done. Qed.

#[local] Hint Rewrite matches_cons advances_cons matches_app advances_app
  matches_nil advances_nil : trace.

Lemma is_similar_arr_quiet t r a b :
  matches (is_similar_arr t r a b).1 = [] ∧
  advances (is_similar_arr t r a b).1 = [].
Proof.
  unfold is_similar_arr, zeros_of, bitwise_xor, reshape, true_div.
  repeat (case_decide; cbn); done.
Qed.

Lemma compare_frames_quiet thr ratio frames base cand :
  compared (compare_frames thr ratio frames base cand).1 = [] ∧
  bases (compare_frames thr ratio frames base cand).1 = [] ∧
  matches (compare_frames thr ratio frames base cand).1 = [] ∧
  advances (compare_frames thr ratio frames base cand).1 = [].
Proof.
  split; [apply compare_frames_compared|]. split; [apply compare_frames_bases|].
  unfold compare_frames. rewrite bind_run.
  pose proof (py_index_trace frames base) as H1.
  destruct (py_index frames base) as [t1 [fb|e|]]; cbn in H1; subst t1; [|done..].
  rewrite bind_run.
  pose proof (py_index_trace frames cand) as H2.
  destruct (py_index frames cand) as [t2 [fc|e|]]; cbn in H2; subst t2; [|done..].
  cbn [fst snd app]. apply is_similar_arr_quiet.
Qed.

Section ResultShape.

Context (thr : Z) (ratio : Q) (frames : list (list Z)).

(** A returning pass over the candidates either fell back, or matched at one
    candidate that it compared. *)
Lemma for_cand_Ok redundant base candidates tr redundant' base' :
  for_cand thr ratio frames redundant base candidates = (tr, Ok (redundant', base')) →
  bases tr = [] ∧
  ((matches tr = [] ∧ advances tr = [base'] ∧ redundant' = redundant ∧
    base' = Z.min (base + 10) (n_frames frames - 1)) ∨
   (∃ c, c ∈ candidates ∧ matches tr = [(base + 1, c)] ∧ advances tr = [] ∧
      (base, c) ∈ compared tr ∧
      redundant' = redundant ∪ list_to_set (py_range (base + 1) (c + 1)) ∧
      base' = c + 1)).
Proof.
  revert tr. induction candidates as [|cand rest IH]; intros tr; cbn [for_cand].
  - cbn. intros [= <- <- <-]. split; [done|]. by left.
  - rewrite bind_run. cbn [print]. rewrite bind_run.
    destruct (compare_frames_quiet thr ratio frames base cand)
      as (Q1 & Q2 & Q3 & Q4).
    destruct (compare_frames thr ratio frames base cand) as [t [[|]|e|]];
      cbn [fst snd] in Q1, Q2, Q3, Q4; cbn -[for_cand]; [| |done..].
    + intros [= <- <- <-]. trace_simpl. rewrite Q1, Q2, Q3, Q4. cbn.
      split; [done|]. right. exists cand.
      split_and!; try done; left.
    + destruct (for_cand thr ratio frames redundant base rest) as [t' r'].
      cbn [fst snd]. intros [= <- ->].
      destruct (IH t' eq_refl) as [Hb Hcase]. trace_simpl.
      rewrite Q1, Q2, Q3, Q4, Hb. cbn [app]. split; [done|].
      destruct Hcase as [?|(c & Hc & ? & ? & Hcmp & ? & ?)]; [by left|].
      right. exists c. split_and!; try done; by right.
Qed.

Lemma outer_iter_Ok offs redundant base tr redundant' base' :
  Forall (λ o, 1 ≤ o) offs →
  outer_iter thr ratio frames offs redundant base = (tr, Ok (redundant', base')) →
  bases tr = [base] ∧
  ((matches tr = [] ∧ advances tr = [base'] ∧ redundant' = redundant ∧
    base' = Z.min (base + 10) (n_frames frames - 1)) ∨
   (∃ c, base < c < n_frames frames ∧ matches tr = [(base + 1, c)] ∧
      advances tr = [] ∧ (base, c) ∈ compared tr ∧
      redundant' = redundant ∪ list_to_set (py_range (base + 1) (c + 1)) ∧
      base' = c + 1)).
Proof.
  intros Hoffs. unfold outer_iter. rewrite !bind_run. cbn -[for_cand].
  destruct (for_cand _ _ _ _ _ _) as [t r] eqn:Hrun. cbn [fst snd].
  intros [= <- ->]. destruct (for_cand_Ok _ _ _ _ _ _ Hrun) as [Hb Hcase].
  trace_simpl. rewrite Hb. split; [done|].
  destruct Hcase as [?|(c & Hc & ? & ? & ? & ? & ?)]; [by left|].
  pose proof (candidates_of_elem _ _ _ _ Hoffs Hc).
  right. exists c. split_and!; try done; lia.
Qed.

Lemma while_base_Ok fuel offs redundant base tr redundant' :
  Forall (λ o, 1 ≤ o) offs →
  while_base thr ratio frames fuel offs redundant base = (tr, Ok redundant') →
  (∀ i, i ∈ redundant' ↔
        i ∈ redundant ∨ ∃ lo hi, (lo, hi) ∈ matches tr ∧ lo ≤ i ≤ hi) ∧
  (∀ lo hi, (lo, hi) ∈ matches tr →
        lo ≤ hi ∧ lo - 1 ∈ bases tr ∧ (lo - 1, hi) ∈ compared tr).
Proof.
  intros Hoffs. revert redundant base tr.
  induction fuel as [|fuel IH]; intros redundant base tr;
    cbn [while_base]; case_decide as Hlt; try done.
  - intros [= <- <-]. split.
    + intros i. split; [by left|]. intros [?|(lo & hi & []%elem_of_nil & _)]. done.
    + by intros ?? ?%elem_of_nil.
  - intros H. apply bind_Ok in H as (t1 & [red1 base1] & t2 & Hiter & Hrest & ->).
    destruct (outer_iter_Ok _ _ _ _ _ _ Hoffs Hiter) as [Hb Hcase].
    destruct (IH _ _ _ Hrest) as [I1 I2]. trace_simpl. rewrite Hb.
    destruct Hcase as [(Hm & _ & -> & _)|(c & Hc & Hm & _ & Hcmp & -> & _)];
      rewrite Hm.
    + split.
      * intros i. rewrite I1. done.
      * intros lo hi Hin. destruct (I2 _ _ Hin) as (? & ? & ?).
        split_and!; [done|by right|]. apply elem_of_app. by right.
    + split.
      * intros i. rewrite I1, elem_of_union, elem_of_list_to_set, elem_of_py_range.
        split.
        -- intros [[?|?]|(lo & hi & ? & ?)].
           ++ by left.
           ++ right. exists (base + 1), c. split; [left|lia].
           ++ right. exists lo, hi. split; [by right|done].
        -- intros [?|(lo & hi & [[= -> ->]|?]%elem_of_cons & ?)].
           ++ left. by left.
           ++ left. right. lia.
           ++ right. by exists lo, hi.
      * intros lo hi [[= -> ->]|Hin]%elem_of_cons.
        -- replace (base + 1 - 1) with base by lia.
           split_and!; [lia|left|]. apply elem_of_app. by left.
        -- destruct (I2 _ _ Hin) as (? & ? & ?).
           split_and!; [done|by right|]. apply elem_of_app. by right.
  - intros [= <- <-]. split.
    + intros i. split; [by left|]. intros [?|(lo & hi & []%elem_of_nil & _)]. done.
    + by intros ?? ?%elem_of_nil.
Qed.

End ResultShape.

(** X12: a returned result is exactly the union of the ranges that the scan
    printed as matches.  Every such range [lo .. hi] is non-empty, starts
    right after a printed base [lo - 1] and ends at a candidate [hi] that was
    compared with that base. *)
Theorem find_redundant_ranges_matches thr ratio frames fps tr res :
  find_redundant_ranges thr ratio frames fps = (tr, Ok res) →
  (∀ i, i ∈ res ↔ ∃ lo hi, (lo, hi) ∈ matches tr ∧ lo ≤ i ≤ hi) ∧
  (∀ lo hi, (lo, hi) ∈ matches tr →
     lo ≤ hi ∧ lo - 1 ∈ bases tr ∧ (lo - 1, hi) ∈ compared tr).
Proof.
  intros Hrun. destruct (decide (1 ≤ py_int fps)) as [Hf|Hf];
    [|by rewrite find_redundant_ranges_no_ladder in Hrun by lia].
  rewrite (find_redundant_ranges_run _ _ _ _ Hf) in Hrun. cbv zeta in Hrun.
  destruct (while_base _ _ _ _ _ _ _) as [t [r|e|]] eqn:Hloop; [|done..].
  cbn [fst snd] in Hrun. injection Hrun as -> <-.
  destruct (while_base_Ok _ _ _ _ _ _ _ _ _ (while_step_positive _) Hloop)
    as [W1 W2].
  split; [|done]. intros i. rewrite elem_of_sorted, W1.
  split; [intros [[]%elem_of_empty|?]; done|by right].
Qed.

Lemma find_redundant_ranges_matches_witness :
  (∀ i, i ∈ [1; 2; 4] ↔ ∃ lo hi, (lo, hi) ∈ matches five_solid_trace ∧ lo ≤ i ≤ hi) ∧
  (∀ lo hi, (lo, hi) ∈ matches five_solid_trace →
     lo ≤ hi ∧ lo - 1 ∈ bases five_solid_trace ∧
     (lo - 1, hi) ∈ compared five_solid_trace).
Proof.
  apply (find_redundant_ranges_matches 17 (7 # 10) five_solid_frames 2
           five_solid_trace [1; 2; 4]).
  vm_compute. reflexivity.
Defined.

(** ** The cost of a scan *)

Section ScanCost.

Context (thr : Z) (ratio : Q) (frames : list (list Z)).




End ScanCost.



(** ** Scans over frames of one size *)

Lemma one_in_ladder step : 1 ≤ step → 1 ∈ while_step [] step.
Proof.
  intros Hs. destruct (while_step_ladder _ Hs) as (init & -> & _).
  apply elem_of_app. right. left.
Qed.

Section UniformFrames.

Context (thr : Z) (ratio : Q) (frames : list (list Z)) (n : nat).
Hypothesis frames_size : Forall (λ fr, length fr = n) frames.

Lemma frames_lookup_size (i : Z) :
  0 ≤ i < n_frames frames →
  ∃ fr, py_index frames i = ([], Ok fr) ∧ length fr = n.
Proof.
  intros Hi. destruct (py_index_Ok frames i Hi) as (fr & Hidx & Hlk).
  exists fr. split; [done|].
  rewrite Forall_forall in frames_size. apply frames_size.
  by eapply list_elem_of_lookup_2.
Qed.

Lemma first_candidate offs base :
  Forall (λ o, 1 ≤ o) offs → 1 ∈ offs → base < n_frames frames - 1 →
  ∃ c rest, candidates_of frames offs base = c :: rest ∧ base < c < n_frames frames.
Proof.
  intros Hoffs H1 Hlt.
  destruct (candidates_of frames offs base) as [|c rest] eqn:Hc.
  - assert (base + 1 ∈ candidates_of frames offs base) as Hin.
    { unfold candidates_of. apply (list_elem_of_fmap_2 (λ o, base + o)).
      apply list_elem_of_filter. split; [lia|done]. }
    rewrite Hc in Hin. by apply elem_of_nil in Hin.
  - exists c, rest. split; [done|].
    apply (candidates_of_elem frames offs base c Hoffs). rewrite Hc. left.
Qed.

Lemma first_comparison_raises fps :
  (1 <= fps)%Q → 2 ≤ n_frames frames → (n `mod` 3 ≠ 0)%nat →
  ∃ c rest,
    0 < c < n_frames frames ∧
    find_redundant_ranges thr ratio frames fps =
      ([EvBase 0; EvCandidates (c :: rest); EvComparing 0 c], Raise ValueError).
Proof.
  intros Hfps HN Hmod. pose proof (py_int_ge_1 _ Hfps) as Hf.
  destruct (first_candidate (while_step [] (py_int fps)) 0)
    as (c & rest & Hcands & Hc);
    [apply while_step_positive | by apply one_in_ladder | lia |].
  exists c, rest. split; [done|].
  rewrite (find_redundant_ranges_run _ _ _ _ Hf). cbv zeta.
  destruct (Z.to_nat (n_frames frames)) as [|fuel] eqn:Hfuel; [lia|].
  cbn [while_base]. rewrite decide_True by lia.
  unfold outer_iter. rewrite Hcands. cbn [for_cand].
  destruct (frames_lookup_size 0) as (fb & Hfb & Hlb); [lia|].
  destruct (frames_lookup_size c) as (fc & Hfc & Hlc); [lia|].
  unfold compare_frames. rewrite Hfb, Hfc.
  rewrite (bind_run (_, Ok fb)), (bind_run (_, Ok fc)). cbn [fst snd app].
  rewrite is_similar_arr_not_multiple_of_3 by congruence. done.
Qed.


End UniformFrames.


(** ** A static video *)

Section StaticVideo.

Context (thr : Z) (ratio : Q) (p : list Z) (k m : nat).
Hypothesis thr_le : thr ≤ 24.
Hypothesis ratio_le : (ratio <= 1)%Q.
Hypothesis size_p : length p = (3 * m)%nat.
Hypothesis m_pos : (0 < m)%nat.

Abbreviation static := (replicate k p).

Lemma static_index (i : Z) :
  0 ≤ i < n_frames static → py_index static i = ([], Ok p).
Proof.
  intros Hi. destruct (py_index_Ok static i Hi) as (fr & -> & Hlk).
  apply lookup_replicate in Hlk as [-> _]. done.
Qed.

Lemma static_compare (base cand : Z) :
  0 ≤ base < n_frames static → 0 ≤ cand < n_frames static →
  compare_frames thr ratio static base cand =
    ([EvMatched (Z.of_nat (4 * m)) (Z.of_nat (4 * m))], Ok true).
Proof.
  intros Hb Hc. unfold compare_frames.
  rewrite (static_index base Hb), (static_index cand Hc).
  rewrite !bind_run. cbn [fst snd app].
  by rewrite (is_similar_arr_self thr ratio m p).
Qed.

Lemma static_loop offs fuel redundant base :
  Forall (λ o, 1 ≤ o) offs → 1 ∈ offs → 0 ≤ base →
  (Z.to_nat (n_frames static - 1 - base) ≤ fuel)%nat →
  ∃ tr redundant',
    while_base thr ratio static fuel offs redundant base = (tr, Ok redundant') ∧
    advances tr = [] ∧
    length (compared tr) = length (bases tr) ∧
    (∀ i, i ∈ redundant → i ∈ redundant') ∧
    (∀ i, base ≤ i < n_frames static - 1 → i ∈ bases tr ∨ i ∈ redundant').
Proof.
  intros Hoffs H1. revert redundant base.
  induction fuel as [|fuel IH]; intros redundant base Hb Hfuel;
    cbn [while_base]; case_decide as Hlt; try lia.
  - exists [], redundant. split_and!; try done. intros; lia.
  - destruct (first_candidate static offs base Hoffs H1 Hlt)
      as (c & rest & Hcands & Hc).
    destruct (IH (redundant ∪ list_to_set (py_range (base + 1) (c + 1))) (c + 1))
      as (t2 & red' & Hrest & Hadv & Hlen & Hmono & Hcover); [lia..|].
    exists ([EvBase base; EvCandidates (c :: rest); EvComparing base c;
             EvMatched (Z.of_nat (4 * m)) (Z.of_nat (4 * m));
             EvMatch (base + 1) c] ++ t2), red'.
    split_and!.
    + unfold outer_iter. rewrite Hcands. cbn [for_cand].
      rewrite static_compare by lia.
      rewrite !bind_run. cbn -[while_base]. by rewrite Hrest.
    + trace_simpl. done.
    + trace_simpl. cbn [length app]. by rewrite Hlen.
    + intros i Hi. apply Hmono, elem_of_union. by left.
    + intros i Hi. trace_simpl.
      cbn [app]. destruct (decide (i = base)) as [->|Hne]; [left; left|].
      destruct (decide (i ≤ c)) as [Hle|Hgt].
      * right. apply Hmono, elem_of_union. right.
        apply elem_of_list_to_set, elem_of_py_range. lia.
      * destruct (Hcover i ltac:(lia)) as [?|?]; [left; by right|by right].
  - exists [], redundant. split_and!; try done. intros; lia.
Qed.

(** X15: a static video.  When all [k] frames are the same frame, of a pixel
    count that is a positive multiple of three, and the configuration is in
    range, the scan returns without ever falling back: each base matches at
    the first candidate it is compared with, and every index below [k - 1]
    is either a printed base or in the result. *)
Theorem find_redundant_ranges_static (fps : Q) :
  (1 <= fps)%Q →
  ∃ tr res,
    find_redundant_ranges thr ratio static fps = (tr, Ok res) ∧
    advances tr = [] ∧
    length (compared tr) = length (bases tr) ∧
    (∀ i, 0 ≤ i < Z.of_nat k - 1 → i ∈ bases tr ∨ i ∈ res).
Proof.
  intros Hfps. pose proof (py_int_ge_1 _ Hfps) as Hf.
  destruct (static_loop (while_step [] (py_int fps))
              (Z.to_nat (n_frames static)) ∅ 0)
    as (tr & red & Hloop & Hadv & Hlen & _ & Hcover);
    [apply while_step_positive | by apply one_in_ladder | done | lia |].
  exists tr, (sorted red).
  rewrite (find_redundant_ranges_run _ _ _ _ Hf). cbv zeta. rewrite Hloop.
  split_and!; try done.
  intros i Hi. rewrite elem_of_sorted. apply Hcover.
  unfold n_frames. rewrite length_replicate. lia.
Qed.

End StaticVideo.

Lemma find_redundant_ranges_static_witness :
  (17 ≤ 24 ∧ (7 # 10 <= 1)%Q ∧ length [660510; 660510; 660510] = (3 * 1)%nat ∧
   (0 < 1)%nat ∧ (1 <= 2)%Q) ∧
  ∃ tr res,
    find_redundant_ranges 17 (7 # 10) (replicate 5 [660510; 660510; 660510]) 2 =
      (tr, Ok res) ∧
    advances tr = [] ∧
    length (compared tr) = length (bases tr) ∧
    (∀ i, 0 ≤ i < Z.of_nat 5 - 1 → i ∈ bases tr ∨ i ∈ res).
Proof.
  assert ((7 # 10 <= 1)%Q) as Hr by (vm_compute; discriminate).
  assert ((1 <= 2)%Q) as Hfps by (vm_compute; discriminate).
  split; [split_and!; [lia|exact Hr|reflexivity|lia|exact Hfps]|].
  apply (find_redundant_ranges_static 17 (7 # 10) [660510; 660510; 660510] 5 1);
    [lia|exact Hr|reflexivity|lia|exact Hfps].
Defined.

(** ** Fractional frame rates *)

Lemma py_int_inject_Z (z : Z) : py_int (inject_Z z) = z.
Proof. unfold py_int, inject_Z. cbn. apply Z.quot_1_r. Qed.

(** X16: the scan uses the frame rate only through [int(fps)]: a fractional
    rate such as 29.97 gives the same trace and the same result as its
    truncation 29. *)
Theorem find_redundant_ranges_truncates_fps thr ratio frames (fps : Q) :
  find_redundant_ranges thr ratio frames fps =
  find_redundant_ranges thr ratio frames (inject_Z (py_int fps)).
Proof.
  unfold find_redundant_ranges, build_offs. by rewrite py_int_inject_Z.
Qed.

Example fps_2997 : py_int (2997 # 100) = 29.
Proof. reflexivity. Qed.

(** ** Which videos scan *)

Section UniformScan.

Context (thr : Z) (ratio : Q) (frames : list (list Z)) (m : nat).
Hypothesis frames_size : Forall (λ fr, length fr = (3 * m)%nat) frames.
Hypothesis m_pos : (0 < m)%nat.

Lemma uniform_compare (base cand : Z) :
  0 ≤ base < n_frames frames → 0 ≤ cand < n_frames frames →
  ∃ t v, compare_frames thr ratio frames base cand = (t, Ok v).
Proof.
  intros Hb Hc.
  destruct (frames_lookup_size frames _ frames_size base Hb) as (fb & Hfb & Hlb).
  destruct (frames_lookup_size frames _ frames_size cand Hc) as (fc & Hfc & Hlc).
  unfold compare_frames. rewrite Hfb, Hfc, !bind_run. cbn [fst snd app].
  destruct (zeros_of_multiple_of_3 fb fc) as (zs & Hzs & Hsize);
    [congruence | rewrite Hlb, Nat.mul_comm; apply Nat.Div0.mod_mul |].
  rewrite (zeros_of_is_similar_arr _ _ _ _ zs Hzs); [by eexists _, _|].
  intros ->. cbn in Hsize. lia.
Qed.

Lemma uniform_for_cand redundant base candidates :
  0 ≤ base < n_frames frames →
  (∀ c, c ∈ candidates → base < c < n_frames frames) →
  ∃ t r b, for_cand thr ratio frames redundant base candidates = (t, Ok (r, b)).
Proof.
  intros Hb. induction candidates as [|cand rest IH]; intros Hin; cbn [for_cand].
  - by eexists _, _, _.
  - destruct (uniform_compare base cand) as (t & v & Hcmp);
      [lia | specialize (Hin cand ltac:(left)); lia |].
    destruct IH as (t' & r' & b' & Hrest); [intros c Hc; apply Hin; by right|].
    rewrite bind_run. cbn [print]. rewrite bind_run, Hcmp.
    destruct v; cbn -[for_cand]; [by eexists _, _, _|].
    rewrite Hrest. by eexists _, _, _.
Qed.

Lemma uniform_loop fuel offs redundant base :
  Forall (λ o, 1 ≤ o) offs → 0 ≤ base →
  (Z.to_nat (n_frames frames - 1 - base) ≤ fuel)%nat →
  ∃ tr redundant',
    while_base thr ratio frames fuel offs redundant base = (tr, Ok redundant').
Proof.
  intros Hoffs. revert redundant base.
  induction fuel as [|fuel IH]; intros redundant base Hb Hfuel;
    cbn [while_base]; case_decide as Hlt; try lia; try by eexists _, _.
  destruct (uniform_for_cand redundant base (candidates_of frames offs base))
    as (t & r & b & Hfor); [lia | intros c; by apply candidates_of_elem |].
  destruct (outer_iter_run thr ratio frames offs redundant base Hoffs Hb)
    as (_ & _ & _ & _ & O5).
  assert (outer_iter thr ratio frames offs redundant base =
            (EvBase base :: EvCandidates (candidates_of frames offs base) :: t,
             Ok (r, b))) as Hiter.
  { unfold outer_iter. rewrite !bind_run. cbn -[for_cand]. by rewrite Hfor. }
  rewrite Hiter in O5 |- *. cbn [snd] in O5.
  assert (base < b) as Hprog.
  { destruct (O5 _ _ eq_refl) as [[_ ->]|(c & ? & _ & ->)]; lia. }
  destruct (IH r b) as (t2 & red' & Hrest); [lia..|].
  rewrite bind_run. cbn -[while_base]. rewrite Hrest. by eexists _, _.
Qed.

Lemma uniform_scan_returns (fps : Q) :
  (1 <= fps)%Q →
  ∃ tr res, find_redundant_ranges thr ratio frames fps = (tr, Ok res).
Proof.
  intros Hfps. pose proof (py_int_ge_1 _ Hfps) as Hf.
  destruct (uniform_loop (Z.to_nat (n_frames frames))
              (while_step [] (py_int fps)) ∅ 0)
    as (tr & red & Hloop); [apply while_step_positive | done | lia |].
  rewrite (find_redundant_ranges_run _ _ _ _ Hf). cbv zeta. rewrite Hloop.
  by eexists _, _.
Qed.

End UniformScan.

Lemma packed_frames_size (height width : nat) (frames : list frame) :
  Forall (frame_shape height width) frames →
  Forall (λ fr, length fr = (height * width)%nat) (frame_to_24int <$> frames).
Proof.
  intros Hshape. apply Forall_fmap. eapply Forall_impl; [exact Hshape|].
  intros f Hf. by apply length_frame_to_24int.
Qed.

(** X17: packing and scanning a video (lines 107 and 110).  For at least
    two frames of one [height] by [width] shape with at least one pixel, and
    a frame rate of at least one, the scan returns a result exactly when
    three divides [height * width]; otherwise it raises. *)
Theorem scan_frames_returns_iff thr ratio (height width : nat)
    (frames : list frame) (fps : Q) :
  Forall (frame_shape height width) frames →
  (0 < height * width)%nat → (2 ≤ length frames)%nat → (1 <= fps)%Q →
  (∃ tr res, scan_frames thr ratio frames fps = (tr, Ok res)) ↔
  ((height * width) `mod` 3 = 0)%nat.
Proof.
  intros Hshape Hpos HN Hfps. unfold scan_frames.
  pose proof (packed_frames_size _ _ _ Hshape) as Hsize.
  destruct (decide ((height * width) `mod` 3 = 0)%nat) as [Hmod|Hmod].
  - split; [done|]. intros _.
    pose proof (Nat.div_mod_eq (height * width) 3) as Hdiv. rewrite Hmod in Hdiv.
    apply (uniform_scan_returns thr ratio _ ((height * width) `div` 3)); [|lia|done].
    eapply Forall_impl; [exact Hsize|]. cbn beta. lia.
  - split; [|done]. intros (tr & res & Hrun).
    destruct (first_comparison_raises thr ratio _ _ Hsize fps Hfps)
      as (c & rest & _ & Hraise); [|done|congruence].
    unfold n_frames. rewrite length_fmap. lia.
Qed.

Lemma scan_frames_returns_iff_witness :
  let f := [[RGB 10 20 30; RGB 255 0 0; RGB 1 2 3]] in
  (Forall (frame_shape 1 3) [f; f] ∧ (0 < 1 * 3)%nat ∧
   (2 ≤ length [f; f])%nat ∧ (1 <= 1)%Q) ∧
  ((∃ tr res, scan_frames 17 (7 # 10) [f; f] 1 = (tr, Ok res)) ↔
   ((1 * 3) `mod` 3 = 0)%nat).
Proof.
  assert (frame_shape 1 3 [[RGB 10 20 30; RGB 255 0 0; RGB 1 2 3]])
    as Hf by (split; [reflexivity|repeat constructor]).
  assert ((1 <= 1)%Q) as Hfps by (vm_compute; discriminate).
  split; [split_and!; [by repeat constructor|lia|cbn; lia|exact Hfps]|].
  apply (scan_frames_returns_iff 17 (7 # 10) 1 3);
    [by repeat constructor|lia|cbn; lia|exact Hfps].
Defined.
